(** * canvas-root: the arrow grid of [src/app/page.tsx]

    A shallow embedding of the page component: the grid builder
    ([setCanvasAndGrid]), the frame stepper ([animate]) and the drawing
    commands it issues ([drawArrow]).

    Numbers.  A JavaScript [number] is modelled by a real number of the
    Standard Library ([R]) with exact arithmetic; [Math.PI] is [PI],
    [Math.atan2] is the two-argument arctangent on the reals, [Math.hypot]
    the Euclidean norm, [Math.min]/[Math.max] are [Rmin]/[Rmax].  Rounding
    of IEEE doubles is outside this model.  Viewport and canvas sizes are
    non-negative integers ([N]), as [canvas.width] is an unsigned long.

    Where the rounding of doubles decides a statement, the arithmetic of
    the frame step is embedded a second time, on binary64 floats, in
    [Module Binary64]: the opacity of lines 132-140 and the angle update of
    lines 116-127, both as functions of values the step has already
    computed (the distance, the target angle).

    State.  The four [useRef] cells of the component are the fields of
    [State]; every callback is a function from [State] to [State].  The 2D
    context is a drawing state, its save/restore stack and the trace of the
    commands issued so far. *)

From Stdlib Require Import PrimFloat.
From Stdlib Require Import Reals Lra Lia List ZArith NArith.
Set Warnings "-inexact-float".

From Equations Require Import Equations.
Import ListNotations.

Open Scope R_scope.

(** ** Constants (page.tsx, lines 5-21) *)

Definition ARROW_SPACING : N := 50.
Definition BLUR_ALPHA : R := 0.1.

Definition ARROW_LENGTH : R := 12.
Definition ARROWHEAD_SIZE : R := 4.
Definition LINE_STROKE_WIDTH : R := 0.2.

Definition FADE_START_DISTANCE : R := 100.
Definition FADE_END_DISTANCE : R := 200.
Definition MIN_OPACITY : R := 0.01.
Definition MAX_OPACITY : R := 1.0.

Definition SMOOTHING_FACTOR : R := 0.05.

(** ** Platform primitives *)

(** The value of a non-negative integer as a [number]. *)
Definition num (n : N) : R := IZR (Z.of_N n).

(** [Math.atan2 y x]: the angle of the point [(x, y)], in (-PI, PI], and 0 at
    the origin. *)
Definition atan2 (y x : R) : R :=
  if Rlt_dec 0 x then atan (y / x)
  else if Rlt_dec x 0 then
         if Rle_dec 0 y then atan (y / x) + PI else atan (y / x) - PI
       else if Rlt_dec 0 y then PI / 2
            else if Rlt_dec y 0 then - (PI / 2)
                 else 0.

(** [Math.hypot dx dy]. *)
Definition hypot (dx dy : R) : R := sqrt (dx * dx + dy * dy).

(** ** Data model *)

(** An element of [arrowGridPositions.current]. *)
Record GridCell : Type := mkCell
  { x : R;
    y : R;
    currentAngle : R }.

(** The value of [targetMousePos.current]; the fields carry the names of the
    event fields they are copied from. *)
Record MousePos : Type := mkMouse
  { clientX : R;
    clientY : R }.

(** ** The 2D context *)

Inductive Style : Type :=
| Black
| White
| Rgba (r g b : Z) (alpha : R).

Record DrawState : Type := mkDrawState
  { fillStyle : Style;
    strokeStyle : Style;
    lineWidth : R;
    globalAlpha : R }.

(** One command received by the surface, with the part of the drawing state
    that decides how it paints. *)
Inductive Command : Type :=
| CSave
| CRestore
| CTranslate (tx ty : R)
| CRotate (angle : R)
| CBeginPath
| CMoveTo (mx my : R)
| CLineTo (lx ly : R)
| CStroke (style : Style) (width alpha : R)
| CFillRect (style : Style) (alpha : R) (rx ry rw rh : R).

Record Context2D : Type := mkContext
  { drawState : DrawState;
    savedStates : list DrawState;
    commands : list Command }.

Definition emit (c : Command) (ctx : Context2D) : Context2D :=
  mkContext (drawState ctx) (savedStates ctx) (commands ctx ++ [c]).

Definition setDrawState (d : DrawState) (ctx : Context2D) : Context2D :=
  mkContext d (savedStates ctx) (commands ctx).

Definition setFillStyle (s : Style) (ctx : Context2D) : Context2D :=
  let d := drawState ctx in
  setDrawState (mkDrawState s (strokeStyle d) (lineWidth d) (globalAlpha d)) ctx.

Definition setStrokeStyle (s : Style) (ctx : Context2D) : Context2D :=
  let d := drawState ctx in
  setDrawState (mkDrawState (fillStyle d) s (lineWidth d) (globalAlpha d)) ctx.

Definition setLineWidth (w : R) (ctx : Context2D) : Context2D :=
  let d := drawState ctx in
  setDrawState (mkDrawState (fillStyle d) (strokeStyle d) w (globalAlpha d)) ctx.

Definition setGlobalAlpha (a : R) (ctx : Context2D) : Context2D :=
  let d := drawState ctx in
  setDrawState (mkDrawState (fillStyle d) (strokeStyle d) (lineWidth d) a) ctx.

Definition save (ctx : Context2D) : Context2D :=
  emit CSave
    (mkContext (drawState ctx) (drawState ctx :: savedStates ctx) (commands ctx)).

Definition restore (ctx : Context2D) : Context2D :=
  match savedStates ctx with
  | [] => ctx
  | d :: rest => emit CRestore (mkContext d rest (commands ctx))
  end.

Definition stroke (ctx : Context2D) : Context2D :=
  let d := drawState ctx in
  emit (CStroke (strokeStyle d) (lineWidth d) (globalAlpha d)) ctx.

Definition fillRect (rx ry rw rh : R) (ctx : Context2D) : Context2D :=
  let d := drawState ctx in
  emit (CFillRect (fillStyle d) (globalAlpha d) rx ry rw rh) ctx.

(** ** drawArrow (lines 37-64) *)

Definition drawArrow (ctx : Context2D) (ax ay angle : R) : Context2D :=
  let ctx := save ctx in
  let ctx := emit (CTranslate ax ay) ctx in
  let ctx := emit (CRotate angle) ctx in
  let ctx := setStrokeStyle White ctx in
  let ctx := setLineWidth LINE_STROKE_WIDTH ctx in
  let ctx := emit CBeginPath ctx in
  let ctx := emit (CMoveTo 0 0) ctx in
  let ctx := emit (CLineTo ARROW_LENGTH 0) ctx in
  let ctx := stroke ctx in
  let ctx := emit CBeginPath ctx in
  let ctx := emit (CMoveTo ARROW_LENGTH 0) ctx in
  let ctx := emit (CLineTo (ARROW_LENGTH - ARROWHEAD_SIZE) (- ARROWHEAD_SIZE / 2)) ctx in
  let ctx := emit (CMoveTo ARROW_LENGTH 0) ctx in
  let ctx := emit (CLineTo (ARROW_LENGTH - ARROWHEAD_SIZE) (ARROWHEAD_SIZE / 2)) ctx in
  let ctx := stroke ctx in
  restore ctx.

(** ** Component state *)

Record Canvas : Type := mkCanvas
  { width : N;
    height : N;
    context2d : option Context2D }.

Record State : Type := mkState
  { canvasRef : option Canvas;
    animationFrameId : option positive;
    targetMousePos : MousePos;
    arrowGridPositions : list GridCell }.

(** The refs as [useRef] initialises them (lines 24-31), for a given mounted
    canvas. *)
Definition initialState (canvas : option Canvas) : State :=
  mkState canvas None (mkMouse 0 0) [].

(** ** setCanvasAndGrid (lines 70-89) *)

(** The inner loop (lines 83-86): [cx] is the loop variable [x], [cy] the
    current [y] of the outer loop, [grid] the array [newGridPositions]. *)
Equations? columnLoop (w : N) (cy : R) (cx : R) (grid : list GridCell)
  : list GridCell by wf (Z.to_nat (up (num w - cx))) lt :=
  columnLoop w cy cx grid with Rlt_dec cx (num w) := {
    | left _ => columnLoop w cy (cx + num ARROW_SPACING)
                  (grid ++ [mkCell cx cy 0]);
    | right _ => grid }.
Proof.
  destruct (archimed (num w - cx)) as [Hup _].
  destruct (archimed (num w - (cx + num ARROW_SPACING))) as [_ Hup'].
  assert (Hstep : num ARROW_SPACING = 50) by reflexivity.
  assert (Hlt : IZR (up (num w - (cx + num ARROW_SPACING))) < IZR (up (num w - cx)))
    by lra.
  assert (Hpos : IZR 0 < IZR (up (num w - cx))) by lra.
  apply lt_IZR in Hlt. apply lt_IZR in Hpos. lia.
Qed.

(** The outer loop (lines 82-87); [cx0] is the start value of the inner loop
    variable. *)
Equations? rowLoop (w h : N) (cx0 : R) (cy : R) (grid : list GridCell)
  : list GridCell by wf (Z.to_nat (up (num h - cy))) lt :=
  rowLoop w h cx0 cy grid with Rlt_dec cy (num h) := {
    | left _ => rowLoop w h cx0 (cy + num ARROW_SPACING)
                  (columnLoop w cy cx0 grid);
    | right _ => grid }.
Proof.
  destruct (archimed (num h - cy)) as [Hup _].
  destruct (archimed (num h - (cy + num ARROW_SPACING))) as [_ Hup'].
  assert (Hstep : num ARROW_SPACING = 50) by reflexivity.
  assert (Hlt : IZR (up (num h - (cy + num ARROW_SPACING))) < IZR (up (num h - cy)))
    by lra.
  assert (Hpos : IZR 0 < IZR (up (num h - cy))) by lra.
  apply lt_IZR in Hlt. apply lt_IZR in Hpos. lia.
Qed.

(** Lines 77-87: the array built for a canvas of the given size. *)
Definition newGridPositions (w h : N) : list GridCell :=
  let offsetX := num (w mod ARROW_SPACING) / 2 in
  let offsetY := num (h mod ARROW_SPACING) / 2 in
  rowLoop w h (num ARROW_SPACING / 2 + offsetX)
    (num ARROW_SPACING / 2 + offsetY) [].

(** [innerWidth] and [innerHeight] are the window's at the time of the call. *)
Definition setCanvasAndGrid (innerWidth innerHeight : N) (s : State) : State :=
  match canvasRef s with
  | None => s
  | Some canvas =>
      mkState (Some (mkCanvas innerWidth innerHeight (context2d canvas)))
        (animationFrameId s) (targetMousePos s)
        (newGridPositions innerWidth innerHeight)
  end.

(** ** handleMouseMove (lines 163-165) *)

Definition handleMouseMove (ex ey : R) (s : State) : State :=
  mkState (canvasRef s) (animationFrameId s) (mkMouse ex ey)
    (arrowGridPositions s).

(** ** animate (lines 96-154) *)

(** The wrap of lines 119-120, used again on lines 126-127. *)
Definition normalizeAngle (a : R) : R :=
  let a := if Rgt_dec a PI then a - 2 * PI else a in
  if Rlt_dec a (- PI) then a + 2 * PI else a.

(** Lines 111-113. *)
Definition targetAngle (target : MousePos) (arrow : GridCell) : R :=
  let dx := clientX target - x arrow in
  let dy := clientY target - y arrow in
  atan2 dy dx.

(** Lines 116-120: the normalized [angleDiff]. *)
Definition angleDiff (target : MousePos) (arrow : GridCell) : R :=
  normalizeAngle (targetAngle target arrow - currentAngle arrow).

(** Line 123: [currentAngle] after [+=], before it is wrapped. *)
Definition interpolatedAngle (k : R) (target : MousePos) (arrow : GridCell) : R :=
  currentAngle arrow + angleDiff target arrow * k.

(** Lines 111-127, with smoothing factor [k]: the cell after the update of
    its angle. *)
Definition rotateArrow (k : R) (target : MousePos) (arrow : GridCell) : GridCell :=
  mkCell (x arrow) (y arrow) (normalizeAngle (interpolatedAngle k target arrow)).

(** Line 130. *)
Definition distance (target : MousePos) (arrow : GridCell) : R :=
  hypot (clientX target - x arrow) (clientY target - y arrow).

(** Lines 132-140, as a function of [distance]. *)
Definition opacity (d : R) : R :=
  let opacity :=
    if Rgt_dec d FADE_START_DISTANCE then
      let fadeProgress :=
        Rmin 1 ((d - FADE_START_DISTANCE) / (FADE_END_DISTANCE - FADE_START_DISTANCE)) in
      MAX_OPACITY - (MAX_OPACITY - MIN_OPACITY) * fadeProgress
    else MAX_OPACITY in
  Rmax MIN_OPACITY (Rmin MAX_OPACITY opacity).

(** The body of the [forEach] callback (lines 109-150). *)
Definition animateArrow (target : MousePos) (arrow : GridCell) (ctx : Context2D)
  : GridCell * Context2D :=
  let arrow' := rotateArrow SMOOTHING_FACTOR target arrow in
  let ctx := setGlobalAlpha (opacity (distance target arrow)) ctx in
  let ctx := drawArrow ctx (x arrow') (y arrow') (currentAngle arrow') in
  (arrow', setGlobalAlpha 1.0 ctx).

(** [arrowGridPositions.current.forEach]. *)
Fixpoint forEachArrow (target : MousePos) (arrows : list GridCell) (ctx : Context2D)
  : list GridCell * Context2D :=
  match arrows with
  | [] => ([], ctx)
  | arrow :: rest =>
      let (arrow', ctx') := animateArrow target arrow ctx in
      let (rest', ctx'') := forEachArrow target rest ctx' in
      (arrow' :: rest', ctx'')
  end.

(** One frame; [frameId] is the handle [requestAnimationFrame] returns. *)
Definition animate (frameId : positive) (s : State) : State :=
  match canvasRef s with
  | None => s
  | Some canvas =>
      match context2d canvas with
      | None => s
      | Some ctx =>
          let ctx := setFillStyle (Rgba 0 0 0 BLUR_ALPHA) ctx in
          let ctx := fillRect 0 0 (num (width canvas)) (num (height canvas)) ctx in
          let (arrows, ctx) :=
            forEachArrow (targetMousePos s) (arrowGridPositions s) ctx in
          mkState (Some (mkCanvas (width canvas) (height canvas) (Some ctx)))
            (Some frameId) (targetMousePos s) arrows
      end
  end.

(** [n] frames with the pointer held where it is. *)
Fixpoint ticks (k : R) (target : MousePos) (n : nat) (arrow : GridCell) : GridCell :=
  match n with
  | O => arrow
  | S n' => rotateArrow k target (ticks k target n' arrow)
  end.

(** ** The effect (lines 159-181) and the browser around it *)

(** What the component registers with the browser: whether
    [setCanvasAndGrid] listens to "resize" and [handleMouseMove] to
    "mousemove", the handles of the frame requests that were neither run nor
    cancelled, oldest first, and the next handle the browser hands out
    (handles are non-zero). *)
Record Browser : Type := mkBrowser
  { resizeListener : bool;
    mousemoveListener : bool;
    scheduledFrames : list positive;
    nextHandle : positive }.

Record Page : Type := mkPage
  { refs : State;
    browser : Browser }.

Definition requestAnimationFrame (b : Browser) : positive * Browser :=
  (nextHandle b,
   mkBrowser (resizeListener b) (mousemoveListener b)
     (scheduledFrames b ++ [nextHandle b]) (Pos.succ (nextHandle b))).

Definition cancelAnimationFrame (id : positive) (b : Browser) : Browser :=
  mkBrowser (resizeListener b) (mousemoveListener b)
    (remove Pos.eq_dec id (scheduledFrames b)) (nextHandle b).

Definition setListeners (on : bool) (b : Browser) : Browser :=
  mkBrowser on on (scheduledFrames b) (nextHandle b).

(** Whether [animate] gets past its two early returns (lines 97-101). *)
Definition rendersFrame (s : State) : bool :=
  match canvasRef s with
  | None => false
  | Some canvas =>
      match context2d canvas with
      | None => false
      | Some _ => true
      end
  end.

(** The body of the effect (lines 160-171); the window has the given inner
    size. *)
Definition effectSetup (innerWidth innerHeight : N) (p : Page) : Page :=
  let s := setCanvasAndGrid innerWidth innerHeight (refs p) in
  let b := setListeners true (browser p) in
  let (id, b) := requestAnimationFrame b in
  mkPage (mkState (canvasRef s) (Some id) (targetMousePos s) (arrowGridPositions s)) b.

(** The cleanup the effect returns (lines 174-180). *)
Definition effectCleanup (p : Page) : Page :=
  let b := setListeners false (browser p) in
  match animationFrameId (refs p) with
  | Some id => mkPage (refs p) (cancelAnimationFrame id b)
  | None => mkPage (refs p) b
  end.

(** The browser runs the oldest scheduled frame request: [animate] is called,
    and asks for the next frame on line 153 unless it returned early. *)
Definition runFrame (p : Page) : Page :=
  match scheduledFrames (browser p) with
  | [] => p
  | _ :: rest =>
      let b := mkBrowser (resizeListener (browser p)) (mousemoveListener (browser p))
                 rest (nextHandle (browser p)) in
      mkPage (animate (nextHandle b) (refs p))
        (if rendersFrame (refs p) then snd (requestAnimationFrame b) else b)
  end.

Inductive Event : Type :=
| Resize (innerWidth innerHeight : N)
| MouseMove (ex ey : R)
| Frame
| Unmount.

(** An event reaches a handler only while the handler is registered. *)
Definition dispatch (p : Page) (ev : Event) : Page :=
  match ev with
  | Resize w h =>
      if resizeListener (browser p)
      then mkPage (setCanvasAndGrid w h (refs p)) (browser p)
      else p
  | MouseMove ex ey =>
      if mousemoveListener (browser p)
      then mkPage (handleMouseMove ex ey (refs p)) (browser p)
      else p
  | Frame => runFrame p
  | Unmount => effectCleanup p
  end.

Definition run (events : list Event) (p : Page) : Page :=
  fold_left dispatch events p.

(** The page right after the effect has run for the first time. *)
Definition mounted (canvas : option Canvas) (innerWidth innerHeight : N) : Page :=
  effectSetup innerWidth innerHeight
    (mkPage (initialState canvas) (mkBrowser false false [] 1%positive)).

(** ** The arithmetic of the frame step on binary64 floats *)

Module Binary64.

Definition FADE_START_DISTANCE : PrimFloat.float := 100%float.
Definition FADE_END_DISTANCE : PrimFloat.float := 200%float.
Definition MIN_OPACITY : PrimFloat.float := 0.01%float.
Definition MAX_OPACITY : PrimFloat.float := 1.0%float.
Definition SMOOTHING_FACTOR : PrimFloat.float := 0.05%float.

(** [Math.PI]. *)
Definition Math_PI : PrimFloat.float := 3.141592653589793%float.

(** [Math.min] and [Math.max] of two numbers: NaN if the two do not
    compare, and -0 below +0. *)
Definition Math_min (a b : PrimFloat.float) : PrimFloat.float :=
  if PrimFloat.ltb a b then a
  else if PrimFloat.ltb b a then b
  else if PrimFloat.eqb a b
       then (if PrimFloat.is_zero a then (if PrimFloat.get_sign a then a else b) else a)
       else PrimFloat.nan.

Definition Math_max (a b : PrimFloat.float) : PrimFloat.float :=
  if PrimFloat.ltb a b then b
  else if PrimFloat.ltb b a then a
  else if PrimFloat.eqb a b
       then (if PrimFloat.is_zero a then (if PrimFloat.get_sign a then b else a) else a)
       else PrimFloat.nan.

(** Line 135, reached when [distance > FADE_START_DISTANCE]. *)
Definition fadeProgress (distance : PrimFloat.float) : PrimFloat.float :=
  Math_min 1%float
    ((distance - FADE_START_DISTANCE)
     / (FADE_END_DISTANCE - FADE_START_DISTANCE))%float.

(** Lines 132-140. *)
Definition opacity (distance : PrimFloat.float) : PrimFloat.float :=
  let opacity :=
    if PrimFloat.ltb FADE_START_DISTANCE distance
    then (MAX_OPACITY - (MAX_OPACITY - MIN_OPACITY) * fadeProgress distance)%float
    else MAX_OPACITY in
  Math_max MIN_OPACITY (Math_min MAX_OPACITY opacity).

(** The wrap of lines 119-120 and 126-127. *)
Definition normalizeAngle (a : PrimFloat.float) : PrimFloat.float :=
  let a := if PrimFloat.ltb Math_PI a then (a - 2 * Math_PI)%float else a in
  if PrimFloat.ltb a (- Math_PI)%float then (a + 2 * Math_PI)%float else a.

(** Lines 116-120. *)
Definition angleDiff (targetAngle currentAngle : PrimFloat.float) : PrimFloat.float :=
  normalizeAngle (targetAngle - currentAngle)%float.

(** Lines 116-127: [currentAngle] after one frame. *)
Definition nextAngle (targetAngle currentAngle : PrimFloat.float) : PrimFloat.float :=
  normalizeAngle
    (currentAngle + angleDiff targetAngle currentAngle * SMOOTHING_FACTOR)%float.

Fixpoint ticks (targetAngle : PrimFloat.float) (n : nat) (currentAngle : PrimFloat.float) : PrimFloat.float :=
  match n with
  | O => currentAngle
  | S n' => nextAngle targetAngle (ticks targetAngle n' currentAngle)
  end.

End Binary64.

(** ** Angles *)

Ltac case_wrap :=
  repeat match goal with
    | |- context [Rgt_dec ?a ?b] => destruct (Rgt_dec a b)
    | |- context [Rlt_dec ?a ?b] => destruct (Rlt_dec a b)
    | |- context [Rle_dec ?a ?b] => destruct (Rle_dec a b)
    end.

Lemma atan_pos (r : R) : 0 < r -> 0 < atan r.
Proof.
  intros Hr. rewrite <- atan_0. now apply atan_increasing.
Qed.

Lemma atan_nonpos (r : R) : r <= 0 -> atan r <= 0.
Proof.
  intros [Hr | ->].
  - rewrite <- atan_0. left. now apply atan_increasing.
  - rewrite atan_0. lra.
Qed.

Lemma quotient_neg_nonneg (a b : R) : b < 0 -> 0 <= a -> a / b <= 0.
Proof.
  intros Hb Ha. unfold Rdiv.
  assert (Hinv : / b < 0) by now apply Rinv_lt_0_compat.
  nra.
Qed.

Lemma quotient_neg_neg (a b : R) : b < 0 -> a < 0 -> 0 < a / b.
Proof.
  intros Hb Ha. unfold Rdiv.
  assert (Hinv : / b < 0) by now apply Rinv_lt_0_compat.
  nra.
Qed.

(** [Math.atan2] returns an angle of (-PI, PI]. *)
Lemma atan2_range (dy dx : R) : - PI < atan2 dy dx <= PI.
Proof.
  pose proof PI_RGT_0 as Hpi.
  pose proof (atan_bound (dy / dx)) as Hb.
  unfold atan2. case_wrap; try lra.
  - pose proof (atan_nonpos _ (quotient_neg_nonneg dy dx ltac:(lra) ltac:(lra))). lra.
  - pose proof (atan_pos _ (quotient_neg_neg dy dx ltac:(lra) ltac:(lra))). lra.
Qed.

Lemma atan2_origin : atan2 0 0 = 0.
Proof.
  unfold atan2. case_wrap; lra.
Qed.

Lemma targetAngle_range (target : MousePos) (arrow : GridCell) :
  - PI < targetAngle target arrow <= PI.
Proof. apply atan2_range. Qed.

Lemma normalizeAngle_small (a : R) : - PI <= a <= PI -> normalizeAngle a = a.
Proof.
  intros Ha. unfold normalizeAngle. case_wrap; lra.
Qed.

Lemma normalizeAngle_range (a : R) :
  - (2 * PI) < a < 2 * PI -> - PI <= normalizeAngle a <= PI.
Proof.
  intros Ha. unfold normalizeAngle. case_wrap; lra.
Qed.

(** The wrap of a difference of a target in (-PI, PI] and an angle in
    [-PI, PI]. *)
Lemma normalizeAngle_diff_range (t c : R) :
  - PI < t <= PI -> - PI <= c <= PI -> - PI <= normalizeAngle (t - c) <= PI.
Proof.
  intros Ht Hc. unfold normalizeAngle. case_wrap; lra.
Qed.

Lemma scaled_between (d k : R) :
  0 < k <= 1 -> (0 <= d -> 0 <= d * k <= d) /\ (d <= 0 -> d <= d * k <= 0).
Proof. intros Hk. split; intros Hd; nra. Qed.

(** One update of an angle [c] towards a target [t] (lines 116-127): the
    new angle stays in [-PI, PI] and the wrapped difference to the target is
    scaled by [1 - k]. *)
Lemma angle_step (k t c : R) :
  0 < k < 1 -> - PI < t <= PI -> - PI <= c <= PI ->
  let d := normalizeAngle (t - c) in
  let c' := normalizeAngle (c + d * k) in
  - PI <= c' <= PI /\ normalizeAngle (t - c') = (1 - k) * d.
Proof.
  intros Hk Ht Hc d c'.
  pose proof PI_RGT_0 as Hpi.
  pose proof (normalizeAngle_diff_range t c Ht Hc) as Hd.
  destruct (scaled_between d k ltac:(lra)) as [Hp Hn].
  assert (Hmul : (1 - k) * d = d - d * k) by ring.
  rewrite Hmul. subst c'.
  assert (Hscaled : forall p, (0 <= d -> 0 <= p <= d) -> (d <= 0 -> d <= p <= 0) ->
            (d <> 0 -> p <> d) ->
            - PI <= normalizeAngle (c + p) <= PI /\
            normalizeAngle (t - normalizeAngle (c + p)) = d - p).
  { clear Hp Hn Hmul. intros p Hp Hn Hne. subst d. revert Hd Hp Hn Hne.
    unfold normalizeAngle. case_wrap; intros; try lra;
      try (destruct (Rle_dec 0 (t - c)); lra);
      try (destruct (Rle_dec 0 (t - c - 2 * PI)); lra);
      try (destruct (Rle_dec 0 (t - c + 2 * PI)); lra). }
  apply Hscaled; auto.
  intros Hd0 Heq. assert (d * (1 - k) = 0) by lra.
  apply Rmult_integral in H. lra.
Qed.

(** ** The frame step on one cell and on the state *)


Lemma rotateArrow_step (k : R) (target : MousePos) (arrow : GridCell) :
  0 < k < 1 -> - PI <= currentAngle arrow <= PI ->
  - PI <= currentAngle (rotateArrow k target arrow) <= PI /\
  angleDiff target (rotateArrow k target arrow) = (1 - k) * angleDiff target arrow.
Proof.
  intros Hk Hc.
  exact (angle_step k _ _ Hk (targetAngle_range target arrow) Hc).
Qed.



Lemma SMOOTHING_FACTOR_range : 0 < SMOOTHING_FACTOR < 1.
Proof. unfold SMOOTHING_FACTOR. lra. Qed.

(** The cells [forEach] leaves behind are the rotated cells, in order. *)
Lemma forEachArrow_cells (target : MousePos) (arrows : list GridCell) :
  forall ctx,
    fst (forEachArrow target arrows ctx)
    = map (rotateArrow SMOOTHING_FACTOR target) arrows.
Proof.
  induction arrows as [| arrow rest IH]; intros ctx; simpl; [reflexivity |].
  specialize (IH (snd (animateArrow target arrow ctx))).
  destruct (forEachArrow target rest _) as [rest' ctx''].
  simpl in *. now rewrite IH.
Qed.

(** A frame either is skipped (no canvas, or no context) or rotates every
    cell. *)
Lemma animate_cells (frameId : positive) (s : State) :
  arrowGridPositions (animate frameId s) = arrowGridPositions s \/
  arrowGridPositions (animate frameId s)
  = map (rotateArrow SMOOTHING_FACTOR (targetMousePos s)) (arrowGridPositions s).
Proof.
  unfold animate.
  destruct (canvasRef s) as [canvas |]; [| now left].
  destruct (context2d canvas) as [ctx |]; [| now left].
  right.
  match goal with |- context [forEachArrow ?t ?l ?c] =>
    pose proof (forEachArrow_cells t l c) as Hcells;
    destruct (forEachArrow t l c) as [arrows ctx'] end.
  exact Hcells.
Qed.

Lemma animate_cells_mounted (frameId : positive) (s : State)
      (canvas : Canvas) (ctx : Context2D) :
  canvasRef s = Some canvas -> context2d canvas = Some ctx ->
  arrowGridPositions (animate frameId s)
  = map (rotateArrow SMOOTHING_FACTOR (targetMousePos s)) (arrowGridPositions s).
Proof.
  intros Hcanvas Hctx. unfold animate. rewrite Hcanvas, Hctx.
  match goal with |- context [forEachArrow ?t ?l ?c] =>
    pose proof (forEachArrow_cells t l c) as Hcells;
    destruct (forEachArrow t l c) as [arrows ctx'] end.
  exact Hcells.
Qed.

Lemma animate_targetMousePos (frameId : positive) (s : State) :
  targetMousePos (animate frameId s) = targetMousePos s.
Proof.
  unfold animate.
  destruct (canvasRef s) as [canvas |]; [| reflexivity].
  destruct (context2d canvas) as [ctx |]; [| reflexivity].
  now destruct (forEachArrow _ _ _).
Qed.

(** ** The grid builder *)

(** The layout the loops of [setCanvasAndGrid] are meant to produce: [rows]
    rows of [cols] cells, rows first, the first cell at [(x0, y0)], one
    spacing apart along each axis, every angle 0. *)
Definition gridRow (cols : nat) (x0 cy : R) : list GridCell :=
  map (fun i => mkCell (x0 + num ARROW_SPACING * INR i) cy 0) (seq 0 cols).

Definition gridLayout (cols rows : nat) (x0 y0 : R) : list GridCell :=
  flat_map (fun j => gridRow cols x0 (y0 + num ARROW_SPACING * INR j)) (seq 0 rows).

Lemma columnLoop_body (w : N) (cy cx : R) (grid : list GridCell) :
  columnLoop w cy cx grid
  = if Rlt_dec cx (num w)
    then columnLoop w cy (cx + num ARROW_SPACING) (grid ++ [mkCell cx cy 0])
    else grid.
Proof.
  rewrite columnLoop_equation_1. now destruct (Rlt_dec cx (num w)).
Qed.

Lemma rowLoop_body (w h : N) (cx0 cy : R) (grid : list GridCell) :
  rowLoop w h cx0 cy grid
  = if Rlt_dec cy (num h)
    then rowLoop w h cx0 (cy + num ARROW_SPACING) (columnLoop w cy cx0 grid)
    else grid.
Proof.
  rewrite rowLoop_equation_1. now destruct (Rlt_dec cy (num h)).
Qed.

(** A loop variable that starts at [c0] and takes exactly [n] values below
    [bound]. *)
Definition takes (n : nat) (c0 bound : R) : Prop :=
  (forall i, (i < n)%nat -> c0 + num ARROW_SPACING * INR i < bound) /\
  ~ c0 + num ARROW_SPACING * INR n < bound.

Lemma takes_S (n : nat) (c0 bound : R) :
  takes (S n) c0 bound -> c0 < bound /\ takes n (c0 + num ARROW_SPACING) bound.
Proof.
  intros [Hlt Hge]. split.
  - specialize (Hlt O (Nat.lt_0_succ n)). simpl in Hlt. lra.
  - split.
    + intros i Hi. specialize (Hlt (S i) ltac:(lia)).
      rewrite S_INR in Hlt. lra.
    + rewrite S_INR in Hge. lra.
Qed.

Lemma gridRow_S (n : nat) (x0 cy : R) :
  gridRow (S n) x0 cy = mkCell x0 cy 0 :: gridRow n (x0 + num ARROW_SPACING) cy.
Proof.
  unfold gridRow. simpl. f_equal.
  - f_equal. lra.
  - rewrite <- seq_shift, map_map. apply map_ext. intros i.
    rewrite S_INR. f_equal. lra.
Qed.

Lemma columnLoop_row (n : nat) :
  forall (w : N) (cy cx : R) (grid : list GridCell),
    takes n cx (num w) ->
    columnLoop w cy cx grid = grid ++ gridRow n cx cy.
Proof.
  induction n as [| n IH]; intros w cy cx grid Htakes;
    rewrite columnLoop_body.
  - destruct Htakes as [_ Hge]. simpl in Hge.
    destruct (Rlt_dec cx (num w)) as [Hlt | _]; [lra |].
    unfold gridRow. simpl. now rewrite app_nil_r.
  - apply takes_S in Htakes. destruct Htakes as [Hlt Hrest].
    destruct (Rlt_dec cx (num w)) as [_ | Hge]; [| contradiction].
    rewrite (IH _ _ _ _ Hrest), gridRow_S, <- app_assoc. reflexivity.
Qed.

Lemma gridLayout_S (cols m : nat) (x0 y0 : R) :
  gridLayout cols (S m) x0 y0
  = gridRow cols x0 y0 ++ gridLayout cols m x0 (y0 + num ARROW_SPACING).
Proof.
  unfold gridLayout. simpl. f_equal.
  - f_equal. lra.
  - rewrite <- seq_shift, flat_map_concat_map, map_map, <- flat_map_concat_map.
    apply flat_map_ext. intros j. rewrite S_INR. f_equal. lra.
Qed.

Lemma rowLoop_layout (cols m : nat) :
  forall (w h : N) (cx0 cy : R) (grid : list GridCell),
    takes cols cx0 (num w) -> takes m cy (num h) ->
    rowLoop w h cx0 cy grid = grid ++ gridLayout cols m cx0 cy.
Proof.
  induction m as [| m IH]; intros w h cx0 cy grid Hcols Hrows;
    rewrite rowLoop_body.
  - destruct Hrows as [_ Hge]. simpl in Hge.
    destruct (Rlt_dec cy (num h)) as [Hlt | _]; [lra |].
    unfold gridLayout. simpl. now rewrite app_nil_r.
  - apply takes_S in Hrows. destruct Hrows as [Hlt Hrest].
    destruct (Rlt_dec cy (num h)) as [_ | Hge]; [| contradiction].
    rewrite (IH _ _ _ _ _ Hcols Hrest), (columnLoop_row cols _ _ _ _ Hcols).
    rewrite gridLayout_S, <- app_assoc. reflexivity.
Qed.

(** Euclidean division of a canvas size by the spacing, on the reals. *)
Lemma size_div_mod (w : N) :
  num w = num ARROW_SPACING * INR (N.to_nat (w / ARROW_SPACING))
          + num (w mod ARROW_SPACING)
  /\ 0 <= num (w mod ARROW_SPACING) < num ARROW_SPACING.
Proof.
  unfold num. rewrite INR_IZR_INZ, N_nat_Z. split.
  - rewrite <- mult_IZR, <- plus_IZR. f_equal.
    rewrite <- N2Z.inj_mul, <- N2Z.inj_add. f_equal.
    apply N.div_mod. discriminate.
  - assert (Hmod : (w mod ARROW_SPACING < ARROW_SPACING)%N)
      by (apply N.mod_lt; discriminate).
    split.
    + apply IZR_le. apply N2Z.is_nonneg.
    + apply IZR_lt. now apply N2Z.inj_lt.
Qed.

(** Starting half a spacing plus half the remainder in, the loop variable
    takes [floor (w / spacing)] values. *)
Lemma takes_centered (w : N) :
  takes (N.to_nat (w / ARROW_SPACING))
    (num ARROW_SPACING / 2 + num (w mod ARROW_SPACING) / 2) (num w).
Proof.
  destruct (size_div_mod w) as [Heq [Hr0 Hr1]].
  assert (Hstep : num ARROW_SPACING = 50) by reflexivity.
  split.
  - intros i Hi. apply lt_INR in Hi.
    set (q := INR (N.to_nat (w / ARROW_SPACING))) in *.
    assert (INR i + 1 <= q).
    { subst q. rewrite <- S_INR. apply le_INR. apply INR_lt in Hi. lia. }
    rewrite Hstep in *. lra.
  - rewrite Hstep in *. lra.
Qed.

Lemma newGridPositions_layout (w h : N) :
  newGridPositions w h
  = gridLayout (N.to_nat (w / ARROW_SPACING)) (N.to_nat (h / ARROW_SPACING))
      (num ARROW_SPACING / 2 + num (w mod ARROW_SPACING) / 2)
      (num ARROW_SPACING / 2 + num (h mod ARROW_SPACING) / 2).
Proof.
  unfold newGridPositions.
  rewrite (rowLoop_layout _ _ _ _ _ _ _ (takes_centered w) (takes_centered h)).
  reflexivity.
Qed.

Lemma gridRow_length (cols : nat) (x0 cy : R) : length (gridRow cols x0 cy) = cols.
Proof. unfold gridRow. now rewrite length_map, length_seq. Qed.

Lemma gridLayout_length (cols rows : nat) :
  forall x0 y0, length (gridLayout cols rows x0 y0) = (rows * cols)%nat.
Proof.
  induction rows as [| m IH]; intros x0 y0; [reflexivity |].
  rewrite gridLayout_S, length_app, gridRow_length, IH. reflexivity.
Qed.

Lemma gridLayout_angles (cols rows : nat) (x0 y0 : R) :
  Forall (fun cell => currentAngle cell = 0) (gridLayout cols rows x0 y0).
Proof.
  apply Forall_forall. intros cell Hin.
  unfold gridLayout in Hin. apply in_flat_map in Hin.
  destruct Hin as [j [_ Hin]]. unfold gridRow in Hin.
  apply in_map_iff in Hin. destruct Hin as [i [<- _]]. reflexivity.
Qed.

(** ** Opacity *)

(** The reference curve of the fade window: full opacity up to the start of
    the window, minimal opacity from its end on, linear in between. *)
Definition fadeCurve (d : R) : R :=
  if Rle_dec d FADE_START_DISTANCE then MAX_OPACITY
  else if Rle_dec FADE_END_DISTANCE d then MIN_OPACITY
       else MAX_OPACITY
            - (MAX_OPACITY - MIN_OPACITY)
              * (d - FADE_START_DISTANCE) / (FADE_END_DISTANCE - FADE_START_DISTANCE).

Definition clamp (lo hi v : R) : R := Rmax lo (Rmin hi v).

Ltac unfold_fade :=
  unfold FADE_START_DISTANCE, FADE_END_DISTANCE, MIN_OPACITY, MAX_OPACITY in *.

Ltac case_minmax :=
  unfold Rmin, Rmax;
  repeat match goal with
    | |- context [Rle_dec ?a ?b] => destruct (Rle_dec a b)
    | |- context [Rgt_dec ?a ?b] => destruct (Rgt_dec a b)
    | H : context [Rle_dec ?a ?b] |- _ => destruct (Rle_dec a b)
    | H : context [Rgt_dec ?a ?b] |- _ => destruct (Rgt_dec a b)
    end.

Lemma fadeCurve_range (d : R) : MIN_OPACITY <= fadeCurve d <= MAX_OPACITY.
Proof.
  unfold fadeCurve. unfold_fade. case_minmax; lra.
Qed.

Lemma clamp_inside (lo hi v : R) : lo <= v <= hi -> clamp lo hi v = v.
Proof.
  intros Hv. unfold clamp. case_minmax; lra.
Qed.

Lemma opacity_fadeCurve (d : R) : opacity d = fadeCurve d.
Proof.
  unfold opacity, fadeCurve. unfold_fade. case_minmax; lra.
Qed.

Lemma fadeCurve_antitone (d1 d2 : R) : d1 <= d2 -> fadeCurve d2 <= fadeCurve d1.
Proof.
  intros Hd. unfold fadeCurve. unfold_fade. case_minmax; lra.
Qed.

(** ** What one cell sends to the surface *)

(** The commands of [drawArrow] at alpha [a]. *)
Definition arrowCommands (ax ay angle a : R) : list Command :=
  [ CSave; CTranslate ax ay; CRotate angle;
    CBeginPath; CMoveTo 0 0; CLineTo ARROW_LENGTH 0;
    CStroke White LINE_STROKE_WIDTH a;
    CBeginPath; CMoveTo ARROW_LENGTH 0;
    CLineTo (ARROW_LENGTH - ARROWHEAD_SIZE) (- ARROWHEAD_SIZE / 2);
    CMoveTo ARROW_LENGTH 0;
    CLineTo (ARROW_LENGTH - ARROWHEAD_SIZE) (ARROWHEAD_SIZE / 2);
    CStroke White LINE_STROKE_WIDTH a;
    CRestore ].

Lemma animateArrow_commands (target : MousePos) (arrow : GridCell) (ctx : Context2D) :
  commands (snd (animateArrow target arrow ctx))
  = commands ctx
    ++ arrowCommands (x arrow) (y arrow)
         (currentAngle (rotateArrow SMOOTHING_FACTOR target arrow))
         (opacity (distance target arrow)).
Proof.
  cbv beta iota zeta delta
    [animateArrow drawArrow restore save stroke emit setStrokeStyle setLineWidth
     setGlobalAlpha setDrawState fst snd commands drawState savedStates
     strokeStyle lineWidth globalAlpha fillStyle arrowCommands].
  repeat rewrite <- app_assoc. reflexivity.
Qed.

Lemma animateArrow_cell (target : MousePos) (arrow : GridCell) (ctx : Context2D) :
  fst (animateArrow target arrow ctx) = rotateArrow SMOOTHING_FACTOR target arrow.
Proof. reflexivity. Qed.

(** ** Convergence of the angle (C1) *)









(** A fresh cell with the pointer straight below it, on binary64 floats (the
    target angle is atan2(50, 0), the double nearest PI/2): after 664
    frames the angle is 1.5707963267948943, and from there on the update is
    absorbed by the rounding of the sum: however many frames follow, the
    angle stays there and the difference stays 2.2204460492503131e-15.
    This is why the amended C1 promises no strict decrease on every tick. *)
Lemma binary64_angle_stalls (n : nat) :
  Binary64.ticks 1.5707963267948966%float 3 0%float = 0.22403482610912215%float /\
  Binary64.ticks 1.5707963267948966%float 664 0%float = 1.5707963267948943%float /\
  Binary64.ticks 1.5707963267948966%float n 1.5707963267948943%float
  = 1.5707963267948943%float /\
  Binary64.angleDiff 1.5707963267948966%float 1.5707963267948943%float
  = 2.2204460492503131e-15%float.
Proof.
  split; [vm_compute; reflexivity |].
  split; [vm_compute; reflexivity |].
  split; [| vm_compute; reflexivity].
  induction n as [| n IH]; [reflexivity |].
  change (Binary64.nextAngle 1.5707963267948966%float
            (Binary64.ticks 1.5707963267948966%float n 1.5707963267948943%float)
          = 1.5707963267948943%float).
  rewrite IH. vm_compute. reflexivity.
Qed.

(** ** Range of the angle (C2, C10) *)

Definition inHalfOpen (cell : GridCell) : Prop := - PI < currentAngle cell <= PI.
Definition inClosed (cell : GridCell) : Prop := - PI <= currentAngle cell <= PI.

Lemma newGridPositions_angles (w h : N) :
  Forall (fun cell => currentAngle cell = 0) (newGridPositions w h).
Proof.
  rewrite newGridPositions_layout. apply gridLayout_angles.
Qed.

Lemma interpolatedAngle_range (k : R) (target : MousePos) (arrow : GridCell) :
  0 < k < 1 -> inClosed arrow ->
  - (2 * PI) < interpolatedAngle k target arrow < 2 * PI.
Proof.
  intros Hk Hc. unfold interpolatedAngle, angleDiff.
  pose proof PI_RGT_0 as Hpi.
  pose proof (normalizeAngle_diff_range _ _ (targetAngle_range target arrow) Hc) as Hd.
  destruct (scaled_between (normalizeAngle (targetAngle target arrow - currentAngle arrow))
              k ltac:(lra)) as [Hp Hn].
  unfold inClosed in Hc.
  destruct (Rle_dec 0 (normalizeAngle (targetAngle target arrow - currentAngle arrow)));
    [specialize (Hp ltac:(lra)) | specialize (Hn ltac:(lra))]; nra.
Qed.

Lemma rotateArrow_closed (target : MousePos) (arrow : GridCell) :
  inClosed arrow -> inClosed (rotateArrow SMOOTHING_FACTOR target arrow).
Proof.
  intros Hc.
  apply (rotateArrow_step _ target arrow SMOOTHING_FACTOR_range Hc).
Qed.

(** From the half-open interval the step can leave only through -PI, and
    only when the interpolated angle is exactly -PI. *)
Lemma rotateArrow_halfOpen (target : MousePos) (arrow : GridCell) :
  inHalfOpen arrow ->
  inHalfOpen (rotateArrow SMOOTHING_FACTOR target arrow) \/
  (currentAngle (rotateArrow SMOOTHING_FACTOR target arrow) = - PI /\
   interpolatedAngle SMOOTHING_FACTOR target arrow = - PI).
Proof.
  intros Hc.
  assert (Hcl : inClosed arrow) by (unfold inHalfOpen, inClosed in *; lra).
  pose proof (interpolatedAngle_range _ target arrow SMOOTHING_FACTOR_range Hcl) as Hi.
  pose proof PI_RGT_0 as Hpi.
  unfold inHalfOpen, rotateArrow; simpl.
  destruct (Req_dec (interpolatedAngle SMOOTHING_FACTOR target arrow) (- PI)) as [He | Hne].
  - right. rewrite He. split; [| reflexivity].
    apply normalizeAngle_small. lra.
  - left. revert Hi Hne. generalize (interpolatedAngle SMOOTHING_FACTOR target arrow).
    intros a Hi Hne. unfold normalizeAngle. case_wrap; lra.
Qed.

Lemma animate_closed (frameId : positive) (s : State) :
  Forall inClosed (arrowGridPositions s) ->
  Forall inClosed (arrowGridPositions (animate frameId s)).
Proof.
  intros Hall. destruct (animate_cells frameId s) as [-> | ->]; [assumption |].
  apply Forall_map. revert Hall. apply Forall_impl.
  intros arrow. apply rotateArrow_closed.
Qed.

Definition defaultContext : Context2D :=
  mkContext (mkDrawState Black Black 1 1) [] [].

Lemma targetAngle_upper_left :
  targetAngle (mkMouse 24 26) (mkCell 25 25 (- PI + PI / 76)) = 3 * PI / 4.
Proof.
  unfold targetAngle, atan2; simpl.
  destruct (Rlt_dec 0 (24 - 25)) as [Hlt | _]; [lra |].
  destruct (Rlt_dec (24 - 25) 0) as [_ | Hn]; [| lra].
  destruct (Rle_dec 0 (26 - 25)) as [_ | Hn]; [| lra].
  replace ((26 - 25) / (24 - 25)) with (- (1)) by lra.
  rewrite atan_opp, atan_1. lra.
Qed.

(** C2, the claim as stated fails: a cell at (25, 25) with currentAngle
    -PI + PI/76, which lies in (-PI, PI], and the pointer at (24, 26).  The
    target angle is 3*PI/4, the raw difference 7*PI/4 - PI/76 wraps to
    -5*PI/19, the update adds -PI/76 and currentAngle becomes exactly -PI,
    which neither test of the wrap changes. *)
Lemma C2_counterexample :
  let arrow := mkCell 25 25 (- PI + PI / 76) in
  let s := mkState (Some (mkCanvas 50 50 (Some defaultContext))) None
             (mkMouse 24 26) [arrow] in
  Forall inHalfOpen (arrowGridPositions s) /\
  arrowGridPositions (animate 1 s) = [mkCell 25 25 (- PI)] /\
  ~ Forall inHalfOpen (arrowGridPositions (animate 1 s)).
Proof.
  intros arrow s.
  pose proof PI_RGT_0 as Hpi.
  assert (Hstep : arrowGridPositions (animate 1 s) = [mkCell 25 25 (- PI)]).
  { rewrite (animate_cells_mounted 1 s _ defaultContext eq_refl eq_refl). simpl.
    unfold rotateArrow, interpolatedAngle, angleDiff. subst arrow.
    rewrite targetAngle_upper_left. simpl. do 2 f_equal.
    unfold SMOOTHING_FACTOR, normalizeAngle. case_wrap; lra. }
  repeat split.
  - constructor; [| constructor]. unfold inHalfOpen; simpl. lra.
  - exact Hstep.
  - rewrite Hstep. intros Hall. inversion Hall as [| c l Hc _]; subst.
    unfold inHalfOpen in Hc; simpl in Hc. lra.
Qed.

(** C2 (amended): every cell's currentAngle is 0 at grid-build time, and for
    every pointer target one frame step applied to cells whose currentAngle
    is in (-PI, PI] leaves each of them in the closed interval [-PI, PI]. *)
Theorem C2_angle_stays_normalized (w h : N) (frameId : positive) (s : State) :
  Forall inHalfOpen (arrowGridPositions s) ->
  Forall (fun cell => currentAngle cell = 0 /\ inHalfOpen cell) (newGridPositions w h) /\
  Forall inClosed (arrowGridPositions (animate frameId s)).
Proof.
  intros Hall. split.
  - pose proof PI_RGT_0 as Hpi.
    generalize (newGridPositions_angles w h). apply Forall_impl.
    intros cell Hz. unfold inHalfOpen. rewrite Hz. lra.
  - apply animate_closed. revert Hall. apply Forall_impl.
    intros cell. unfold inHalfOpen, inClosed. lra.
Qed.

Lemma C2_angle_stays_normalized_witness :
  let s := mkState (Some (mkCanvas 50 50 (Some defaultContext))) None
             (mkMouse 24 26) [mkCell 25 25 (- PI + PI / 76)] in
  Forall inHalfOpen (arrowGridPositions s) /\
  Forall inClosed (arrowGridPositions (animate 1 s)).
Proof.
  intros s.
  assert (Hall : Forall inHalfOpen (arrowGridPositions s)).
  { pose proof PI_RGT_0 as Hpi.
    constructor; [| constructor]. unfold inHalfOpen; simpl. lra. }
  split; [exact Hall |].
  exact (proj2 (C2_angle_stays_normalized 500 500 1 s Hall)).
Defined.

(** ** Shortest-path delta (C3) *)

Lemma PI_gt_3 : 3 < PI.
Proof. pose proof PI2_3_2. lra. Qed.

(** Among all angles congruent to it modulo a full turn, an angle of
    [-PI, PI] has the least absolute value. *)
Lemma shortest_among_turns (d : R) (j : Z) :
  - PI <= d <= PI -> Rabs d <= Rabs (d + 2 * PI * IZR j).
Proof.
  intros Hd. pose proof PI_RGT_0 as Hpi.
  destruct (Z.eq_dec j 0) as [-> | Hj].
  - replace (d + 2 * PI * 0) with d by ring. lra.
  - assert (Hcases : (1 <= j)%Z \/ (j <= -1)%Z) by lia.
    destruct Hcases as [Hj1 | Hj1]; apply IZR_le in Hj1;
      unfold Rabs; repeat destruct (Rcase_abs _); nra.
Qed.

(** C3: the raw delta targetAngle - currentAngle, with targetAngle from
    atan2 and currentAngle normalized, has 2*PI subtracted when it exceeds
    PI and 2*PI added when it is below -PI; the result lies in [-PI, PI] and
    is the shortest rotation among all that differ by full turns.  For
    currentAngle = PI - 0.01 and targetAngle = -PI + 0.01 the raw delta
    -2*PI + 0.02 normalizes to 0.02. *)
Theorem C3_shortest_path_delta (target : MousePos) (arrow : GridCell) :
  - PI <= currentAngle arrow <= PI ->
  let raw := targetAngle target arrow - currentAngle arrow in
  (raw > PI -> angleDiff target arrow = raw - 2 * PI) /\
  (raw < - PI -> angleDiff target arrow = raw + 2 * PI) /\
  (- PI <= raw <= PI -> angleDiff target arrow = raw) /\
  - PI <= angleDiff target arrow <= PI /\
  (forall j : Z, Rabs (angleDiff target arrow) <= Rabs (raw + 2 * PI * IZR j)) /\
  (- PI + 0.01) - (PI - 0.01) = - (2 * PI) + 0.02 /\
  normalizeAngle ((- PI + 0.01) - (PI - 0.01)) = 0.02.
Proof.
  intros Hc raw.
  pose proof PI_gt_3 as Hpi.
  pose proof (targetAngle_range target arrow) as Ht.
  pose proof (normalizeAngle_diff_range _ _ Ht Hc) as Hd.
  fold raw in Hd. unfold angleDiff. fold raw.
  repeat split; try lra.
  - intros Hraw. unfold normalizeAngle. case_wrap; lra.
  - intros Hraw. unfold normalizeAngle. case_wrap; lra.
  - intros Hraw. now apply normalizeAngle_small.
  - intros j.
    assert (Hturn : exists m : Z, raw = normalizeAngle raw + 2 * PI * IZR m).
    { unfold normalizeAngle. case_wrap.
      - exists 2%Z. lra.
      - exists 1%Z. lra.
      - exists (-1)%Z. lra.
      - exists 0%Z. lra. }
    destruct Hturn as [m Hm].
    replace (raw + 2 * PI * IZR j)
      with (normalizeAngle raw + 2 * PI * IZR (m + j))
      by (rewrite plus_IZR; lra).
    now apply shortest_among_turns.
  - unfold normalizeAngle. case_wrap; lra.
Qed.

Lemma C3_shortest_path_delta_witness :
  let arrow := mkCell 25 25 0 in
  let target := mkMouse 25 75 in
  - PI <= currentAngle arrow <= PI /\
  - PI <= angleDiff target arrow <= PI.
Proof.
  intros arrow target.
  assert (Hc : - PI <= currentAngle arrow <= PI)
    by (pose proof PI_RGT_0; simpl; lra).
  split; [exact Hc |].
  apply (C3_shortest_path_delta target arrow Hc).
Defined.

(** ** Opacity of a cell (C4, C5) *)




(** C5: opacity is a non-increasing function of distance, and for every real
    input, negative or arbitrarily large, it lies within
    [MIN_OPACITY, MAX_OPACITY]. *)
Theorem C5_opacity_monotone_bounded (d1 d2 : R) :
  d1 < d2 ->
  opacity d1 >= opacity d2 /\
  MIN_OPACITY <= opacity d1 <= MAX_OPACITY /\
  MIN_OPACITY <= opacity d2 <= MAX_OPACITY.
Proof.
  intros Hd. rewrite !opacity_fadeCurve.
  pose proof (fadeCurve_antitone d1 d2 ltac:(lra)).
  pose proof (fadeCurve_range d1). pose proof (fadeCurve_range d2).
  repeat split; lra.
Qed.

Lemma C5_opacity_monotone_bounded_witness :
  120 < 180 /\ opacity 120 >= opacity 180.
Proof.
  assert (Hd : 120 < 180) by lra.
  split; [exact Hd |].
  exact (proj1 (C5_opacity_monotone_bounded 120 180 Hd)).
Defined.

(** ** The grid (C6, C7) *)

Lemma gridLayout_no_columns (rows : nat) :
  forall x0 y0, gridLayout 0 rows x0 y0 = [].
Proof.
  induction rows as [| m IH]; intros x0 y0; [reflexivity |].
  rewrite gridLayout_S, IH. reflexivity.
Qed.

Lemma setCanvasAndGrid_mounted (w h : N) (canvas : Canvas)
      (frame : option positive) (target : MousePos) (cells : list GridCell) :
  setCanvasAndGrid w h (mkState (Some canvas) frame target cells)
  = mkState (Some (mkCanvas w h (context2d canvas))) frame target
      (newGridPositions w h).
Proof. reflexivity. Qed.

(** C6: a rebuild produces floor(W/S) columns and floor(H/S) rows, rows
    first, starting half a spacing plus half the remainder in and stepping by
    the spacing, and sets every produced cell's currentAngle to 0; for a
    500x500 viewport with spacing 50 this is a 10x10 arrangement, 100 cells,
    the first at (25,25), with steps of 50 along each axis. *)
Theorem C6_grid_arrangement (w h : N) (canvas : Canvas)
        (frame : option positive) (target : MousePos) (cells : list GridCell) :
  newGridPositions w h
  = gridLayout (N.to_nat (w / ARROW_SPACING)) (N.to_nat (h / ARROW_SPACING))
      (num ARROW_SPACING / 2 + num (w mod ARROW_SPACING) / 2)
      (num ARROW_SPACING / 2 + num (h mod ARROW_SPACING) / 2) /\
  length (newGridPositions w h)
  = (N.to_nat (h / ARROW_SPACING) * N.to_nat (w / ARROW_SPACING))%nat /\
  Forall (fun cell => currentAngle cell = 0) (newGridPositions w h) /\
  arrowGridPositions
    (setCanvasAndGrid w h (mkState (Some canvas) frame target cells))
  = newGridPositions w h /\
  ARROW_SPACING = 50%N /\
  newGridPositions 500 500
  = flat_map (fun j => map (fun i => mkCell (25 + 50 * INR i) (25 + 50 * INR j) 0)
                         (seq 0 10))
      (seq 0 10) /\
  length (newGridPositions 500 500) = 100%nat /\
  hd_error (newGridPositions 500 500) = Some (mkCell 25 25 0).
Proof.
  assert (H500 : newGridPositions 500 500 = gridLayout 10 10 25 25).
  { rewrite newGridPositions_layout.
    change (N.to_nat (500 / ARROW_SPACING)) with 10%nat.
    change (num (500 mod ARROW_SPACING)) with 0.
    change (num ARROW_SPACING) with 50.
    f_equal; lra. }
  repeat split.
  - apply newGridPositions_layout.
  - rewrite newGridPositions_layout. apply gridLayout_length.
  - apply newGridPositions_angles.
  - exact H500.
  - rewrite H500. apply gridLayout_length.
  - rewrite H500. rewrite gridLayout_S, gridRow_S. simpl. reflexivity.
Qed.

(** C7: the grid builder has no error conditions: it is a total function,
    and if W is 0 or smaller than the spacing S, or H is 0 or smaller than S,
    the produced cell sequence is empty. *)
Theorem C7_small_viewport_empty (w h : N) (canvas : Canvas)
        (frame : option positive) (target : MousePos) (cells : list GridCell) :
  (w = 0 \/ w < ARROW_SPACING \/ h = 0 \/ h < ARROW_SPACING)%N ->
  newGridPositions w h = [] /\
  arrowGridPositions
    (setCanvasAndGrid w h (mkState (Some canvas) frame target cells)) = [].
Proof.
  intros Hsmall.
  assert (Hempty : newGridPositions w h = []).
  { rewrite newGridPositions_layout.
    assert (Hcases : (w < ARROW_SPACING \/ h < ARROW_SPACING)%N)
      by (unfold ARROW_SPACING in *; lia).
    destruct Hcases as [Hw | Hh].
    - rewrite (N.div_small _ _ Hw). apply gridLayout_no_columns.
    - rewrite (N.div_small _ _ Hh). reflexivity. }
  split; [exact Hempty |].
  rewrite setCanvasAndGrid_mounted. exact Hempty.
Qed.

Lemma C7_small_viewport_empty_witness :
  (30 < ARROW_SPACING)%N /\ newGridPositions 30 500 = [] /\ newGridPositions 0 0 = [].
Proof.
  assert (Hw : (30 < ARROW_SPACING)%N) by reflexivity.
  split; [exact Hw |]. split.
  - exact (proj1 (C7_small_viewport_empty 30 500 (mkCanvas 0 0 None) None
                    (mkMouse 0 0) [] (or_intror (or_introl Hw)))).
  - exact (proj1 (C7_small_viewport_empty 0 0 (mkCanvas 0 0 None) None
                    (mkMouse 0 0) [] (or_introl eq_refl))).
Defined.

(** ** Pointer on a cell (C8) *)

(** C8: when the pointer target coincides with a cell's position, the frame
    step is defined like everywhere else: the target angle is
    atan2(0,0) = 0, the distance is 0, the opacity is MAX_OPACITY, and the
    cell is drawn with it. *)
Theorem C8_pointer_on_cell (arrow : GridCell) (ctx : Context2D) :
  let target := mkMouse (x arrow) (y arrow) in
  atan2 0 0 = 0 /\
  targetAngle target arrow = 0 /\
  distance target arrow = 0 /\
  opacity (distance target arrow) = MAX_OPACITY /\
  fst (animateArrow target arrow ctx)
  = mkCell (x arrow) (y arrow)
      (normalizeAngle
         (currentAngle arrow
          + normalizeAngle (0 - currentAngle arrow) * SMOOTHING_FACTOR)) /\
  commands (snd (animateArrow target arrow ctx))
  = commands ctx
    ++ arrowCommands (x arrow) (y arrow)
         (currentAngle (fst (animateArrow target arrow ctx))) MAX_OPACITY.
Proof.
  intros target.
  assert (Ht : targetAngle target arrow = 0).
  { unfold targetAngle; simpl.
    replace (x arrow - x arrow) with 0 by ring.
    replace (y arrow - y arrow) with 0 by ring.
    apply atan2_origin. }
  assert (Hd : distance target arrow = 0).
  { unfold distance, hypot; simpl.
    replace (x arrow - x arrow) with 0 by ring.
    replace (y arrow - y arrow) with 0 by ring.
    replace (0 * 0 + 0 * 0) with 0 by ring.
    apply sqrt_0. }
  assert (Ho : opacity (distance target arrow) = MAX_OPACITY).
  { rewrite Hd, opacity_fadeCurve. unfold fadeCurve. unfold_fade.
    case_minmax; lra. }
  repeat split; try assumption.
  - apply atan2_origin.
  - rewrite animateArrow_cell. unfold rotateArrow, interpolatedAngle, angleDiff.
    now rewrite Ht.
  - rewrite animateArrow_commands, Ho. reflexivity.
Qed.

(** ** Frame effect (C9) *)

(** C9: a frame step changes, for every cell, only the currentAngle field:
    the x and y of each cell are the same before and after, in the same
    order, and the pointer target is unchanged; the other callbacks do not
    write currentAngle: the pointer handler leaves the cells as they are,
    and the grid builder leaves them or installs the freshly built array. *)
Theorem C9_frame_effect (frameId : positive) (s : State) :
  map x (arrowGridPositions (animate frameId s)) = map x (arrowGridPositions s) /\
  map y (arrowGridPositions (animate frameId s)) = map y (arrowGridPositions s) /\
  targetMousePos (animate frameId s) = targetMousePos s /\
  (forall ex ey : R,
      arrowGridPositions (handleMouseMove ex ey s) = arrowGridPositions s) /\
  (forall w h : N,
      arrowGridPositions (setCanvasAndGrid w h s) = arrowGridPositions s \/
      arrowGridPositions (setCanvasAndGrid w h s) = newGridPositions w h).
Proof.
  repeat split.
  - destruct (animate_cells frameId s) as [-> | ->]; [reflexivity |].
    rewrite map_map. reflexivity.
  - destruct (animate_cells frameId s) as [-> | ->]; [reflexivity |].
    rewrite map_map. reflexivity.
  - apply animate_targetMousePos.
  - intros w h. unfold setCanvasAndGrid.
    destruct (canvasRef s); [now right | now left].
Qed.

(** ** The closed interval (C10) *)

(** C10: for cells whose currentAngle lies in the closed interval
    [-PI, PI] and every pointer target, one frame step leaves every
    currentAngle in [-PI, PI]: the value before the wrap lies strictly
    within (-2*PI, 2*PI), so one pass of the wrap suffices, and -PI, being
    neither greater than PI nor less than -PI, is left unchanged by it. *)
Theorem C10_closed_interval_invariant (frameId : positive) (s : State) :
  Forall inClosed (arrowGridPositions s) ->
  Forall inClosed (arrowGridPositions (animate frameId s)) /\
  Forall (fun cell =>
            - (2 * PI) < interpolatedAngle SMOOTHING_FACTOR (targetMousePos s) cell
            < 2 * PI)
    (arrowGridPositions s) /\
  (forall a : R, - (2 * PI) < a < 2 * PI -> - PI <= normalizeAngle a <= PI) /\
  ~ - PI > PI /\ ~ - PI < - PI /\
  normalizeAngle (- PI) = - PI.
Proof.
  intros Hall. pose proof PI_RGT_0 as Hpi.
  repeat split; try lra.
  - now apply animate_closed.
  - revert Hall. apply Forall_impl. intros cell.
    apply interpolatedAngle_range, SMOOTHING_FACTOR_range.
  - now apply normalizeAngle_range.
  - now apply normalizeAngle_range.
  - apply normalizeAngle_small. lra.
Qed.

Lemma C10_closed_interval_invariant_witness :
  let s := mkState (Some (mkCanvas 50 50 (Some defaultContext))) None
             (mkMouse 24 26) [mkCell 25 25 (- PI)] in
  Forall inClosed (arrowGridPositions s) /\
  Forall inClosed (arrowGridPositions (animate 1 s)).
Proof.
  intros s.
  assert (Hall : Forall inClosed (arrowGridPositions s)).
  { pose proof PI_RGT_0 as Hpi.
    constructor; [| constructor]. unfold inClosed; simpl. lra. }
  split; [exact Hall |].
  exact (proj1 (C10_closed_interval_invariant 1 s Hall)).
Defined.

(** * Further properties of the code *)

(** ** Drawing (drawArrow, animate) *)

Ltac run_canvas :=
  cbv beta iota zeta delta
    [animateArrow drawArrow restore save stroke emit fillRect setFillStyle
     setStrokeStyle setLineWidth setGlobalAlpha setDrawState fst snd commands
     drawState savedStates strokeStyle lineWidth globalAlpha fillStyle
     arrowCommands].

(** X1: [drawArrow] is balanced: it appends the fourteen commands of one arrow,
    stroked at the alpha in force when it is called, and hands the context
    back with the drawing state and the stack of saved states it found,
    whatever they were. *)
Theorem drawArrow_balanced (ctx : Context2D) (ax ay angle : R) :
  drawState (drawArrow ctx ax ay angle) = drawState ctx /\
  savedStates (drawArrow ctx ax ay angle) = savedStates ctx /\
  commands (drawArrow ctx ax ay angle)
  = commands ctx ++ arrowCommands ax ay angle (globalAlpha (drawState ctx)).
Proof.
  destruct ctx as [[fill strk lw alpha] saved cmds].
  run_canvas. repeat rewrite <- app_assoc. repeat split.
Qed.

Lemma animateArrow_context (target : MousePos) (arrow : GridCell) (ctx : Context2D) :
  drawState (snd (animateArrow target arrow ctx))
  = mkDrawState (fillStyle (drawState ctx)) (strokeStyle (drawState ctx))
      (lineWidth (drawState ctx)) 1.0 /\
  savedStates (snd (animateArrow target arrow ctx)) = savedStates ctx.
Proof.
  destruct ctx as [[fill strk lw alpha] saved cmds].
  run_canvas. split; reflexivity.
Qed.

(** The commands one cell contributes to a frame. *)
Definition cellCommands (target : MousePos) (arrow : GridCell) : list Command :=
  arrowCommands (x arrow) (y arrow)
    (currentAngle (rotateArrow SMOOTHING_FACTOR target arrow))
    (opacity (distance target arrow)).

Lemma forEachArrow_context (target : MousePos) (arrows : list GridCell) :
  forall ctx : Context2D,
    let ctx' := snd (forEachArrow target arrows ctx) in
    commands ctx' = commands ctx ++ flat_map (cellCommands target) arrows /\
    savedStates ctx' = savedStates ctx /\
    fillStyle (drawState ctx') = fillStyle (drawState ctx) /\
    strokeStyle (drawState ctx') = strokeStyle (drawState ctx) /\
    lineWidth (drawState ctx') = lineWidth (drawState ctx) /\
    globalAlpha (drawState ctx')
    = match arrows with [] => globalAlpha (drawState ctx) | _ :: _ => 1.0 end.
Proof.
  induction arrows as [| arrow rest IH]; intros ctx.
  - simpl. rewrite app_nil_r. repeat split.
  - cbn [forEachArrow].
    pose proof (animateArrow_commands target arrow ctx) as Hcmd.
    destruct (animateArrow_context target arrow ctx) as [Hstate Hsaved].
    destruct (animateArrow target arrow ctx) as [arrow' ctx1].
    cbn [snd] in Hcmd, Hstate, Hsaved.
    specialize (IH ctx1). cbv zeta in IH.
    destruct (forEachArrow target rest ctx1) as [rest' ctx2].
    cbn [snd] in *.
    destruct IH as (Hc & Hs & Hf & Hk & Hl & Ha).
    rewrite Hc, Hs, Hf, Hk, Hl, Hcmd, Hsaved, Hstate.
    cbn [flat_map fillStyle strokeStyle lineWidth]. fold (cellCommands target arrow).
    rewrite <- app_assoc. repeat split.
    rewrite Ha. destruct rest; [now rewrite Hstate | reflexivity].
Qed.

(** The context [animate] draws on, if there is one. *)
Definition frameContext (s : State) : option Context2D :=
  match canvasRef s with
  | None => None
  | Some canvas => context2d canvas
  end.

Lemma animate_mounted (frameId : positive) (s : State)
      (canvas : Canvas) (ctx : Context2D) :
  canvasRef s = Some canvas -> context2d canvas = Some ctx ->
  animate frameId s
  = mkState
      (Some (mkCanvas (width canvas) (height canvas)
               (Some (snd (forEachArrow (targetMousePos s) (arrowGridPositions s)
                             (fillRect 0 0 (num (width canvas)) (num (height canvas))
                                (setFillStyle (Rgba 0 0 0 BLUR_ALPHA) ctx)))))))
      (Some frameId) (targetMousePos s)
      (fst (forEachArrow (targetMousePos s) (arrowGridPositions s)
              (fillRect 0 0 (num (width canvas)) (num (height canvas))
                 (setFillStyle (Rgba 0 0 0 BLUR_ALPHA) ctx)))).
Proof.
  intros Hcanvas Hctx. unfold animate. rewrite Hcanvas, Hctx.
  now destruct (forEachArrow _ _ _).
Qed.

(** X2: a frame that is not skipped sends, after what the surface had already
    received, one blur rectangle over the whole canvas in
    rgba(0, 0, 0, BLUR_ALPHA), at the alpha the context had when the frame
    began, and then the commands of every cell in grid order, each cell at
    its updated angle and at the opacity of its distance to the pointer. *)
Theorem animate_frame_commands (frameId : positive) (s : State)
        (canvas : Canvas) (ctx : Context2D) :
  canvasRef s = Some canvas -> context2d canvas = Some ctx ->
  exists ctx' : Context2D,
    frameContext (animate frameId s) = Some ctx' /\
    commands ctx'
    = commands ctx
      ++ CFillRect (Rgba 0 0 0 BLUR_ALPHA) (globalAlpha (drawState ctx))
           0 0 (num (width canvas)) (num (height canvas))
         :: flat_map (cellCommands (targetMousePos s)) (arrowGridPositions s).
Proof.
  intros Hcanvas Hctx.
  rewrite (animate_mounted frameId s canvas ctx Hcanvas Hctx).
  eexists. split; [reflexivity |].
  destruct (forEachArrow_context (targetMousePos s) (arrowGridPositions s)
              (fillRect 0 0 (num (width canvas)) (num (height canvas))
                 (setFillStyle (Rgba 0 0 0 BLUR_ALPHA) ctx))) as [Hc _].
  rewrite Hc. destruct ctx as [[fill strk lw alpha] saved cmds].
  run_canvas. now rewrite <- app_assoc.
Qed.

Lemma animate_frame_commands_witness :
  let canvas := mkCanvas 50 50 (Some defaultContext) in
  let s := mkState (Some canvas) None (mkMouse 24 26) [mkCell 25 25 0] in
  exists ctx' : Context2D,
    frameContext (animate 1 s) = Some ctx' /\
    commands ctx'
    = CFillRect (Rgba 0 0 0 BLUR_ALPHA) 1 0 0 (num 50) (num 50)
      :: cellCommands (mkMouse 24 26) (mkCell 25 25 0) ++ [].
Proof.
  intros canvas s.
  exact (animate_frame_commands 1 s canvas defaultContext eq_refl eq_refl).
Defined.

(** X3: a frame that is not skipped leaves the stack of saved states, the
    stroke style and the line width of the context as they were, leaves the
    blur colour as fill style, and, when the grid has at least one cell,
    leaves the global alpha at 1.0: the next blur rectangle is painted at
    full alpha.  With an empty grid the global alpha is not touched. *)
Theorem animate_frame_state (frameId : positive) (s : State)
        (canvas : Canvas) (ctx : Context2D) :
  canvasRef s = Some canvas -> context2d canvas = Some ctx ->
  exists ctx' : Context2D,
    frameContext (animate frameId s) = Some ctx' /\
    savedStates ctx' = savedStates ctx /\
    fillStyle (drawState ctx') = Rgba 0 0 0 BLUR_ALPHA /\
    strokeStyle (drawState ctx') = strokeStyle (drawState ctx) /\
    lineWidth (drawState ctx') = lineWidth (drawState ctx) /\
    globalAlpha (drawState ctx')
    = match arrowGridPositions s with
      | [] => globalAlpha (drawState ctx)
      | _ :: _ => 1.0
      end.
Proof.
  intros Hcanvas Hctx.
  rewrite (animate_mounted frameId s canvas ctx Hcanvas Hctx).
  eexists. split; [reflexivity |].
  destruct (forEachArrow_context (targetMousePos s) (arrowGridPositions s)
              (fillRect 0 0 (num (width canvas)) (num (height canvas))
                 (setFillStyle (Rgba 0 0 0 BLUR_ALPHA) ctx)))
    as (_ & Hs & Hf & Hk & Hl & Ha).
  rewrite Hs, Hf, Hk, Hl, Ha.
  destruct ctx as [[fill strk lw alpha] saved cmds].
  run_canvas. repeat split.
Qed.

Lemma animate_frame_state_witness :
  let canvas := mkCanvas 50 50 (Some defaultContext) in
  let s := mkState (Some canvas) None (mkMouse 24 26) [mkCell 25 25 0] in
  exists ctx' : Context2D,
    frameContext (animate 1 s) = Some ctx' /\
    savedStates ctx' = [] /\
    fillStyle (drawState ctx') = Rgba 0 0 0 BLUR_ALPHA /\
    strokeStyle (drawState ctx') = Black /\
    lineWidth (drawState ctx') = 1 /\
    globalAlpha (drawState ctx') = 1.0.
Proof.
  intros canvas s.
  exact (animate_frame_state 1 s canvas defaultContext eq_refl eq_refl).
Defined.

(** X4: whatever the pointer and the cell, both strokes of a cell are white,
    LINE_STROKE_WIDTH wide and at an alpha within
    [MIN_OPACITY, MAX_OPACITY], and a cell contributes fourteen commands. *)
Theorem cellCommands_strokes (target : MousePos) (arrow : GridCell) :
  length (cellCommands target arrow) = 14%nat /\
  forall (style : Style) (lw alpha : R),
    In (CStroke style lw alpha) (cellCommands target arrow) ->
    style = White /\ lw = LINE_STROKE_WIDTH /\
    MIN_OPACITY <= alpha <= MAX_OPACITY.
Proof.
  split; [reflexivity |].
  intros style lw alpha Hin.
  pose proof (fadeCurve_range (distance target arrow)) as Hrange.
  rewrite <- opacity_fadeCurve in Hrange.
  unfold cellCommands, arrowCommands in Hin. cbn [In] in Hin.
  repeat match goal with
         | H : _ \/ _ |- _ => destruct H as [H | H]
         end; try discriminate; try contradiction;
    injection Hin as <- <- <-; auto.
Qed.

(** ** Angles (animate, lines 116-127) *)

(** X5: the wrap is one conditional pass, not a loop: it brings an angle into
    [-PI, PI] exactly when the angle is within three half turns of 0, in
    which case wrapping again changes nothing; an angle such as 4*PI comes
    out as 2*PI. *)
Theorem normalizeAngle_single_pass (a : R) :
  (- PI <= normalizeAngle a <= PI <-> - (3 * PI) <= a <= 3 * PI) /\
  (- (3 * PI) <= a <= 3 * PI -> normalizeAngle (normalizeAngle a) = normalizeAngle a) /\
  normalizeAngle (4 * PI) = 2 * PI.
Proof.
  pose proof PI_RGT_0 as Hpi.
  assert (Hiff : - PI <= normalizeAngle a <= PI <-> - (3 * PI) <= a <= 3 * PI)
    by (unfold normalizeAngle; case_wrap; lra).
  split; [exact Hiff |]. split.
  - intros Ha. apply normalizeAngle_small. now apply Hiff.
  - unfold normalizeAngle. case_wrap; lra.
Qed.

Lemma normalizeAngle_single_pass_witness :
  - (3 * PI) <= 5 * PI / 2 <= 3 * PI /\
  normalizeAngle (normalizeAngle (5 * PI / 2)) = normalizeAngle (5 * PI / 2).
Proof.
  assert (Ha : - (3 * PI) <= 5 * PI / 2 <= 3 * PI)
    by (pose proof PI_RGT_0; lra).
  split; [exact Ha |].
  exact (proj1 (proj2 (normalizeAngle_single_pass (5 * PI / 2))) Ha).
Defined.



Lemma scaled_in_range (t q : R) : - PI < t <= PI -> 0 <= q <= 1 -> - PI <= t * q <= PI.
Proof. intros Ht Hq. pose proof PI_RGT_0. split; nra. Qed.

Lemma ticks_closed_form (k : R) (target : MousePos) (cx cy : R) (n : nat) :
  0 < k < 1 ->
  ticks k target n (mkCell cx cy 0)
  = mkCell cx cy (targetAngle target (mkCell cx cy 0) * (1 - (1 - k) ^ n)).
Proof.
  intros Hk. pose proof PI_RGT_0 as Hpi.
  induction n as [| n IH]; cbn [ticks].
  - f_equal. simpl. ring.
  - rewrite IH. unfold rotateArrow, interpolatedAngle, angleDiff. cbn [x y currentAngle].
    change (targetAngle target (mkCell cx cy _)) with (targetAngle target (mkCell cx cy 0)).
    pose proof (targetAngle_range target (mkCell cx cy 0)) as Ht.
    set (t := targetAngle target (mkCell cx cy 0)) in *.
    assert (Hq : 0 < (1 - k) ^ n <= 1).
    { split; [apply pow_lt; lra |].
      pose proof (pow_incr (1 - k) 1 n ltac:(lra)) as Hle.
      now rewrite pow1 in Hle. }
    assert (Hq' : 0 < (1 - k) ^ S n <= 1).
    { split; [apply pow_lt; lra |].
      pose proof (pow_incr (1 - k) 1 (S n) ltac:(lra)) as Hle.
      now rewrite pow1 in Hle. }
    replace (t - t * (1 - (1 - k) ^ n)) with (t * (1 - k) ^ n) by ring.
    rewrite (normalizeAngle_small (t * (1 - k) ^ n))
      by (apply scaled_in_range; lra).
    replace (t * (1 - (1 - k) ^ n) + t * (1 - k) ^ n * k)
      with (t * (1 - (1 - k) ^ S n)) by (simpl; ring).
    rewrite normalizeAngle_small by (apply scaled_in_range; lra).
    reflexivity.
Qed.



(** X9: the first frame after a rebuild, with a canvas and a context: every
    cell starts from angle 0 again, so each ends at SMOOTHING_FACTOR times
    its own target angle, whatever the angles were before the resize. *)
Theorem rebuild_then_frame (w h : N) (frameId : positive) (s : State)
        (canvas : Canvas) (ctx : Context2D) :
  canvasRef s = Some canvas -> context2d canvas = Some ctx ->
  arrowGridPositions (animate frameId (setCanvasAndGrid w h s))
  = map (fun cell => mkCell (x cell) (y cell)
                       (targetAngle (targetMousePos s) cell * SMOOTHING_FACTOR))
      (newGridPositions w h).
Proof.
  intros Hcanvas Hctx. destruct s as [cref frame target cells].
  cbn [canvasRef] in Hcanvas. subst cref.
  rewrite setCanvasAndGrid_mounted.
  rewrite (animate_cells_mounted frameId
             (mkState (Some (mkCanvas w h (context2d canvas))) frame target
                (newGridPositions w h))
             (mkCanvas w h (context2d canvas)) ctx eq_refl Hctx).
  cbn [targetMousePos arrowGridPositions].
  apply map_ext_Forall.
  generalize (newGridPositions_angles w h). apply Forall_impl.
  intros [cx cy angle] Hzero. cbn [currentAngle] in Hzero. subst angle.
  rewrite (ticks_closed_form SMOOTHING_FACTOR target cx cy 1
             SMOOTHING_FACTOR_range : rotateArrow _ _ _ = _).
  cbn [x y]. f_equal. simpl. ring.
Qed.

Lemma rebuild_then_frame_witness :
  let canvas := mkCanvas 0 0 (Some defaultContext) in
  let s := mkState (Some canvas) None (mkMouse 24 26) [mkCell 1 2 3] in
  arrowGridPositions (animate 1 (setCanvasAndGrid 500 500 s))
  = map (fun cell => mkCell (x cell) (y cell)
                       (targetAngle (mkMouse 24 26) cell * SMOOTHING_FACTOR))
      (newGridPositions 500 500).
Proof.
  intros canvas s.
  exact (rebuild_then_frame 500 500 1 s canvas defaultContext eq_refl eq_refl).
Defined.

(** ** The grid (setCanvasAndGrid, lines 77-88) *)

Lemma in_gridRow (cols : nat) (x0 cy : R) (cell : GridCell) :
  In cell (gridRow cols x0 cy)
  <-> exists i : nat, (i < cols)%nat /\
        cell = mkCell (x0 + num ARROW_SPACING * INR i) cy 0.
Proof.
  unfold gridRow. rewrite in_map_iff. split.
  - intros [i [Heq Hin]]. apply in_seq in Hin. exists i. split; [lia | now symmetry].
  - intros [i [Hi Heq]]. exists i. split; [now symmetry | apply in_seq; lia].
Qed.

Lemma in_gridLayout (cols rows : nat) (x0 y0 : R) (cell : GridCell) :
  In cell (gridLayout cols rows x0 y0)
  <-> exists i j : nat, (i < cols)%nat /\ (j < rows)%nat /\
        cell = mkCell (x0 + num ARROW_SPACING * INR i)
                 (y0 + num ARROW_SPACING * INR j) 0.
Proof.
  unfold gridLayout. rewrite in_flat_map. split.
  - intros [j [Hj Hin]]. apply in_seq in Hj. apply in_gridRow in Hin.
    destruct Hin as [i [Hi Heq]]. exists i, j. repeat split; [lia | lia | exact Heq].
  - intros [i [j [Hi [Hj Heq]]]]. exists j. split; [apply in_seq; lia |].
    apply in_gridRow. now exists i.
Qed.

Lemma index_below (i n : nat) : (i < n)%nat -> 0 <= INR i <= INR n - 1.
Proof.
  intros Hi. split; [apply pos_INR |].
  assert (H : INR (S i) <= INR n) by (apply le_INR; lia).
  rewrite S_INR in H. lra.
Qed.

Lemma size_quotient_pos (w : N) :
  (ARROW_SPACING <= w)%N -> (0 < N.to_nat (w / ARROW_SPACING))%nat.
Proof.
  intros Hw.
  assert (Hq : (1 <= w / ARROW_SPACING)%N).
  { change 1%N with (ARROW_SPACING / ARROW_SPACING)%N.
    apply N.Div0.div_le_mono. exact Hw. }
  lia.
Qed.

Lemma grid_cell_within_margins (w h : N) (cell : GridCell) :
  In cell (newGridPositions w h) ->
  num ARROW_SPACING / 2
  <= num ARROW_SPACING / 2 + num (w mod ARROW_SPACING) / 2 <= x cell /\
  x cell <= num w - (num ARROW_SPACING / 2 + num (w mod ARROW_SPACING) / 2) /\
  num ARROW_SPACING / 2
  <= num ARROW_SPACING / 2 + num (h mod ARROW_SPACING) / 2 <= y cell /\
  y cell <= num h - (num ARROW_SPACING / 2 + num (h mod ARROW_SPACING) / 2).
Proof.
  destruct (size_div_mod w) as [Hw [Hrw0 Hrw1]].
  destruct (size_div_mod h) as [Hh [Hrh0 Hrh1]].
  assert (Hstep : num ARROW_SPACING = 50) by reflexivity.
  rewrite newGridPositions_layout.
  intros Hin. apply in_gridLayout in Hin.
  destruct Hin as [i [j [Hi [Hj ->]]]]. cbn [x y].
  apply index_below in Hi, Hj.
  rewrite Hstep in *. repeat split; nra.
Qed.

Lemma grid_corners (w h : N) :
  (ARROW_SPACING <= w)%N -> (ARROW_SPACING <= h)%N ->
  In (mkCell (num ARROW_SPACING / 2 + num (w mod ARROW_SPACING) / 2)
        (num ARROW_SPACING / 2 + num (h mod ARROW_SPACING) / 2) 0)
    (newGridPositions w h) /\
  In (mkCell (num w - (num ARROW_SPACING / 2 + num (w mod ARROW_SPACING) / 2))
        (num h - (num ARROW_SPACING / 2 + num (h mod ARROW_SPACING) / 2)) 0)
    (newGridPositions w h).
Proof.
  intros Hwide Hhigh.
  destruct (size_div_mod w) as [Hw [Hrw0 Hrw1]].
  destruct (size_div_mod h) as [Hh [Hrh0 Hrh1]].
  assert (Hstep : num ARROW_SPACING = 50) by reflexivity.
  rewrite newGridPositions_layout.
  apply size_quotient_pos in Hwide, Hhigh.
  split; apply in_gridLayout.
  - exists O, O. repeat split; [assumption | assumption |].
    simpl INR. f_equal; lra.
  - exists (Nat.pred (N.to_nat (w / ARROW_SPACING))),
      (Nat.pred (N.to_nat (h / ARROW_SPACING))).
    repeat split; [lia | lia |].
    assert (Hpw : INR (Nat.pred (N.to_nat (w / ARROW_SPACING)))
                  = INR (N.to_nat (w / ARROW_SPACING)) - 1)
      by (rewrite <- (Nat.succ_pred_pos _ Hwide) at 2; rewrite S_INR; lra).
    assert (Hph : INR (Nat.pred (N.to_nat (h / ARROW_SPACING)))
                  = INR (N.to_nat (h / ARROW_SPACING)) - 1)
      by (rewrite <- (Nat.succ_pred_pos _ Hhigh) at 2; rewrite S_INR; lra).
    rewrite Hpw, Hph. rewrite Hstep in *. f_equal; lra.
Qed.

(** X12: the grid is centred in the canvas: with margins of half a spacing plus
    half the remainder of the size, every cell lies between the margins on
    both axes (so at least half a spacing away from every edge), and as soon
    as the canvas holds one cell the two corner cells sit exactly on the
    margins, the same distance from opposite edges. *)
Theorem newGridPositions_centred (w h : N) :
  let marginX := num ARROW_SPACING / 2 + num (w mod ARROW_SPACING) / 2 in
  let marginY := num ARROW_SPACING / 2 + num (h mod ARROW_SPACING) / 2 in
  (forall cell : GridCell, In cell (newGridPositions w h) ->
     num ARROW_SPACING / 2 <= marginX <= x cell /\ x cell <= num w - marginX /\
     num ARROW_SPACING / 2 <= marginY <= y cell /\ y cell <= num h - marginY) /\
  ((ARROW_SPACING <= w)%N -> (ARROW_SPACING <= h)%N ->
   In (mkCell marginX marginY 0) (newGridPositions w h) /\
   In (mkCell (num w - marginX) (num h - marginY) 0) (newGridPositions w h)).
Proof.
  intros marginX marginY. split.
  - intros cell. apply grid_cell_within_margins.
  - apply grid_corners.
Qed.

Lemma newGridPositions_centred_witness :
  (ARROW_SPACING <= 120)%N /\ (ARROW_SPACING <= 70)%N /\
  In (mkCell (num ARROW_SPACING / 2 + num (120 mod ARROW_SPACING) / 2)
        (num ARROW_SPACING / 2 + num (70 mod ARROW_SPACING) / 2) 0)
    (newGridPositions 120 70).
Proof.
  assert (Hw : (ARROW_SPACING <= 120)%N) by (unfold ARROW_SPACING; lia).
  assert (Hh : (ARROW_SPACING <= 70)%N) by (unfold ARROW_SPACING; lia).
  split; [exact Hw |]. split; [exact Hh |].
  exact (proj1 (proj2 (newGridPositions_centred 120 70) Hw Hh)).
Defined.

Lemma gridRow_NoDup (cols : nat) :
  forall x0 cy : R, NoDup (gridRow cols x0 cy).
Proof.
  induction cols as [| n IH]; intros x0 cy; [constructor |].
  rewrite gridRow_S. constructor; [| apply IH].
  intros Hin. apply in_gridRow in Hin. destruct Hin as [i [_ Heq]].
  injection Heq as Hx. pose proof (pos_INR i).
  assert (Hstep : num ARROW_SPACING = 50) by reflexivity.
  rewrite Hstep in Hx. lra.
Qed.

(** X13: no two cells of a grid share a position: the array holds every grid
    point once. *)
Theorem newGridPositions_NoDup (w h : N) :
  NoDup (map (fun cell => (x cell, y cell)) (newGridPositions w h)) /\
  NoDup (newGridPositions w h).
Proof.
  assert (Hcells : forall cols rows x0 y0, NoDup (gridLayout cols rows x0 y0)).
  { intros cols rows. induction rows as [| m IH]; intros x0 y0; [constructor |].
    rewrite gridLayout_S. apply NoDup_app; [apply gridRow_NoDup | apply IH |].
    intros cell Hrow Hrest.
    apply in_gridRow in Hrow. destruct Hrow as [i [_ ->]].
    apply in_gridLayout in Hrest. destruct Hrest as [i' [j [_ [_ Heq]]]].
    injection Heq as _ Hy. pose proof (pos_INR j).
    assert (Hstep : num ARROW_SPACING = 50) by reflexivity.
    rewrite Hstep in Hy. lra. }
  rewrite newGridPositions_layout. split; [| apply Hcells].
  set (grid := gridLayout _ _ _ _).
  assert (Hzero : Forall (fun cell => currentAngle cell = 0) grid)
    by apply gridLayout_angles.
  assert (Hnd : NoDup grid) by apply Hcells.
  induction Hnd as [| cell rest Hnotin Hnd IH]; [constructor |].
  inversion Hzero as [| c l Hc Hrest]; subst.
  cbn [map]. constructor; [| now apply IH].
  intros Hin. apply in_map_iff in Hin. destruct Hin as [cell' [Heq Hin']].
  apply Hnotin.
  assert (Hc' : currentAngle cell' = 0)
    by (rewrite Forall_forall in Hrest; now apply Hrest).
  destruct cell as [cx cy ca], cell' as [cx' cy' ca'].
  cbn [x y currentAngle] in *. injection Heq as -> ->. now subst.
Qed.

(** ** The effect and the frame loop (lines 96-101, 153, 159-181) *)

Lemma animate_skipped (frameId : positive) (s : State) :
  rendersFrame s = false -> animate frameId s = s.
Proof.
  unfold rendersFrame, animate.
  destruct (canvasRef s) as [canvas |]; [| reflexivity].
  destruct (context2d canvas); [discriminate | reflexivity].
Qed.

Lemma animate_rendered (frameId : positive) (s : State) :
  rendersFrame s = true ->
  animationFrameId (animate frameId s) = Some frameId /\
  rendersFrame (animate frameId s) = true.
Proof.
  unfold rendersFrame.
  destruct (canvasRef s) as [canvas |] eqn:Hcanvas; [| discriminate].
  destruct (context2d canvas) as [ctx |] eqn:Hctx; [| discriminate].
  intros _. rewrite (animate_mounted frameId s canvas ctx Hcanvas Hctx).
  split; reflexivity.
Qed.

Lemma setCanvasAndGrid_keeps (w h : N) (s : State) :
  animationFrameId (setCanvasAndGrid w h s) = animationFrameId s /\
  rendersFrame (setCanvasAndGrid w h s) = rendersFrame s /\
  frameContext (setCanvasAndGrid w h s) = frameContext s.
Proof.
  unfold setCanvasAndGrid, rendersFrame, frameContext.
  destruct (canvasRef s) as [canvas |] eqn:Hcanvas; cbn; rewrite ?Hcanvas; auto.
Qed.

(** At most one frame request is outstanding, and it is the one whose handle
    [animationFrameId.current] holds. *)
Definition frameTracked (p : Page) : Prop :=
  scheduledFrames (browser p) = [] \/
  exists id : positive,
    scheduledFrames (browser p) = [id] /\ animationFrameId (refs p) = Some id.

Lemma remove_single (id : positive) : remove Pos.eq_dec id [id] = [].
Proof. cbn. destruct (Pos.eq_dec id id); [reflexivity | contradiction]. Qed.

Lemma dispatch_frameTracked (p : Page) (ev : Event) :
  frameTracked p -> frameTracked (dispatch p ev).
Proof.
  intros Htracked. destruct ev as [w h | ex ey | |]; cbn [dispatch].
  - destruct (resizeListener (browser p)); [| assumption].
    destruct Htracked as [Hnone | [id [Hone Href]]]; [now left |].
    right. exists id. cbn [browser refs]. split; [assumption |].
    now rewrite (proj1 (setCanvasAndGrid_keeps w h (refs p))).
  - destruct (mousemoveListener (browser p)); [| assumption].
    destruct Htracked as [Hnone | [id [Hone Href]]]; [now left |].
    right. now exists id.
  - unfold runFrame.
    destruct (scheduledFrames (browser p)) as [| first rest] eqn:Hsched;
      [assumption |].
    unfold frameTracked in Htracked. rewrite Hsched in Htracked.
    destruct Htracked as [Hnone | [id [Hone Href]]]; [discriminate |].
    injection Hone as _ ->.
    destruct (rendersFrame (refs p)) eqn:Hrenders.
    + right. exists (nextHandle (browser p)). cbn. split; [reflexivity |].
      now apply animate_rendered.
    + left. reflexivity.
  - unfold effectCleanup.
    destruct Htracked as [Hnone | [id [Hone Href]]].
    + left. destruct (animationFrameId (refs p)); cbn; rewrite Hnone; reflexivity.
    + left. rewrite Href. cbn. rewrite Hone. apply remove_single.
Qed.

Lemma run_frameTracked (events : list Event) :
  forall p : Page, frameTracked p -> frameTracked (run events p).
Proof.
  induction events as [| ev rest IH]; intros p Hp; [assumption |].
  cbn. apply IH. now apply dispatch_frameTracked.
Qed.

(** X14: from the mount on, through any sequence of resizes, pointer moves,
    frames and unmounts, at most one frame request is outstanding, and when
    there is one its handle is the one stored in [animationFrameId]: the
    handle the cleanup cancels is always the right one. *)
Theorem frame_requests_tracked (canvas : option Canvas) (w h : N)
        (events : list Event) :
  let p := run events (mounted canvas w h) in
  (length (scheduledFrames (browser p)) <= 1)%nat /\
  forall id : positive,
    In id (scheduledFrames (browser p)) -> animationFrameId (refs p) = Some id.
Proof.
  intros p.
  assert (Htracked : frameTracked p).
  { apply run_frameTracked. right. exists 1%positive. split; reflexivity. }
  destruct Htracked as [-> | [id [-> Href]]].
  - split; [cbn; lia | intros id []].
  - split; [cbn; lia |]. intros id' [<- | []]. exact Href.
Qed.

(** A page on which nothing of the component is registered. *)
Definition quiescent (p : Page) : Prop :=
  resizeListener (browser p) = false /\
  mousemoveListener (browser p) = false /\
  scheduledFrames (browser p) = [].

Lemma dispatch_quiescent (p : Page) (ev : Event) :
  quiescent p -> dispatch p ev = p.
Proof.
  intros (Hresize & Hmouse & Hsched).
  destruct p as [s [rl ml sched next]]. cbn in Hresize, Hmouse, Hsched. subst.
  destruct ev as [w h | ex ey | |]; cbn; try reflexivity.
  unfold effectCleanup. cbn. now destruct (animationFrameId s).
Qed.

Lemma run_quiescent (events : list Event) (p : Page) :
  quiescent p -> run events p = p.
Proof.
  intros Hq. induction events as [| ev rest IH]; [reflexivity |].
  unfold run in *. cbn [fold_left]. now rewrite (dispatch_quiescent p ev Hq).
Qed.

(** X15: unmounting at any moment leaves nothing behind: both listeners are
    removed and no frame request is outstanding, so whatever the browser
    does afterwards, no handler of the component runs and its state, the
    cells and the surface included, stays as it is. *)
Theorem unmount_leaves_nothing (canvas : option Canvas) (w h : N)
        (before after : list Event) :
  let p := dispatch (run before (mounted canvas w h)) Unmount in
  quiescent p /\ run after p = p.
Proof.
  intros p.
  assert (Hq : quiescent p).
  { pose proof (run_frameTracked (before ++ [Unmount]) (mounted canvas w h)
                  ltac:(right; exists 1%positive; split; reflexivity)) as Htracked.
    unfold run in Htracked. rewrite fold_left_app in Htracked.
    cbn [fold_left] in Htracked. fold (run before (mounted canvas w h)) in Htracked.
    fold p in Htracked.
    assert (Hoff : resizeListener (browser p) = false /\
                   mousemoveListener (browser p) = false).
    { subst p. cbn [dispatch]. unfold effectCleanup.
      destruct (animationFrameId (refs (run before (mounted canvas w h))));
        split; reflexivity. }
    destruct Hoff as [Hr Hm]. repeat split; try assumption.
    destruct Htracked as [Hnone | [id [Hone Href]]]; [assumption |].
    exfalso. subst p. cbn [dispatch] in Hone, Href. unfold effectCleanup in Hone, Href.
    destruct (animationFrameId (refs (run before (mounted canvas w h)))) as [id' |] eqn:Hid.
    - cbn [refs browser] in Hone, Href.
      rewrite Hid in Href. injection Href as ->.
      unfold cancelAnimationFrame in Hone. cbn [scheduledFrames] in Hone.
      assert (Hin : In id (remove Pos.eq_dec id
                             (scheduledFrames
                                (setListeners false
                                   (browser (run before (mounted canvas w h)))))))
        by (rewrite Hone; now left).
      now apply remove_In in Hin.
    - cbn [refs browser] in Href. rewrite Hid in Href. discriminate. }
  split; [exact Hq |].
  now apply run_quiescent.
Qed.

(** The frame loop is alive: the component listens and exactly one frame
    request is outstanding, for a frame that will draw. *)
Definition running (p : Page) : Prop :=
  rendersFrame (refs p) = true /\
  resizeListener (browser p) = true /\
  mousemoveListener (browser p) = true /\
  exists id : positive,
    scheduledFrames (browser p) = [id] /\ animationFrameId (refs p) = Some id.

Lemma dispatch_running (p : Page) (ev : Event) :
  ev <> Unmount -> running p -> running (dispatch p ev).
Proof.
  intros Hev (Hrenders & Hresize & Hmouse & id & Hsched & Href).
  destruct ev as [w h | ex ey | |]; cbn [dispatch]; [| | | contradiction].
  - rewrite Hresize. unfold running. cbn [refs browser].
    destruct (setCanvasAndGrid_keeps w h (refs p)) as (Hid & Hr & _).
    rewrite Hid, Hr. repeat split; try assumption. now exists id.
  - rewrite Hmouse. unfold running. cbn [refs browser].
    repeat split; try assumption. now exists id.
  - unfold runFrame. rewrite Hsched, Hrenders.
    destruct (animate_rendered (nextHandle (browser p)) (refs p) Hrenders)
      as [Hid Hr].
    unfold running. cbn. repeat split; try assumption.
    exists (nextHandle (browser p)). split; [reflexivity | exact Hid].
Qed.

(** X16: mounted on a canvas that has a 2D context, the loop re-arms itself
    for ever: after any sequence of resizes, pointer moves and frames that
    contains no unmount, both listeners are still registered and exactly one
    frame request is outstanding, with its handle in [animationFrameId]. *)
Theorem loop_keeps_running (canvas : Canvas) (ctx : Context2D) (w h : N)
        (events : list Event) :
  context2d canvas = Some ctx ->
  Forall (fun ev => ev <> Unmount) events ->
  running (run events (mounted (Some canvas) w h)).
Proof.
  intros Hctx Hevents.
  assert (Hstart : running (mounted (Some canvas) w h)).
  { unfold running, mounted, effectSetup. cbn. unfold rendersFrame. cbn.
    rewrite Hctx. repeat split. now exists 1%positive. }
  revert Hstart. generalize (mounted (Some canvas) w h).
  induction Hevents as [| ev rest Hev _ IH]; intros p Hp; [exact Hp |].
  unfold run in *. cbn [fold_left]. apply IH. now apply dispatch_running.
Qed.

Lemma loop_keeps_running_witness :
  running (run [Frame; Resize 500 500; Frame; MouseMove 10 20; Frame]
             (mounted (Some (mkCanvas 0 0 (Some defaultContext))) 300 200)).
Proof.
  apply (loop_keeps_running (mkCanvas 0 0 (Some defaultContext)) defaultContext
           300 200 _ eq_refl).
  repeat constructor; discriminate.
Defined.

Lemma dispatch_stopped (p : Page) (ev : Event) :
  rendersFrame (refs p) = false /\ scheduledFrames (browser p) = [] ->
  rendersFrame (refs (dispatch p ev)) = false /\
  scheduledFrames (browser (dispatch p ev)) = [].
Proof.
  intros [Hrenders Hsched].
  destruct ev as [w h | ex ey | |]; cbn [dispatch].
  - destruct (resizeListener (browser p)); [| now split].
    cbn [refs browser].
    now rewrite (proj1 (proj2 (setCanvasAndGrid_keeps w h (refs p)))).
  - destruct (mousemoveListener (browser p)); now split.
  - unfold runFrame. rewrite Hsched. now split.
  - unfold effectCleanup.
    destruct (animationFrameId (refs p)); cbn; rewrite Hsched; now split.
Qed.

Lemma run_stopped (events : list Event) :
  forall p : Page,
    rendersFrame (refs p) = false /\ scheduledFrames (browser p) = [] ->
    rendersFrame (refs (run events p)) = false /\
    scheduledFrames (browser (run events p)) = [].
Proof.
  induction events as [| ev rest IH]; intros p Hp; [exact Hp |].
  unfold run in *. cbn [fold_left]. apply IH. now apply dispatch_stopped.
Qed.

Definition listening (p : Page) : Prop :=
  resizeListener (browser p) = true /\ mousemoveListener (browser p) = true.

Lemma dispatch_listening (p : Page) (ev : Event) :
  ev <> Unmount -> listening p -> listening (dispatch p ev).
Proof.
  intros Hev [Hresize Hmouse].
  destruct ev as [w h | ex ey | |]; cbn [dispatch]; [| | | contradiction].
  - rewrite Hresize. now split.
  - rewrite Hmouse. now split.
  - unfold runFrame. destruct (scheduledFrames (browser p)); [now split |].
    destruct (rendersFrame (refs p)); now split.
Qed.

Lemma run_listening (events : list Event) :
  Forall (fun ev => ev <> Unmount) events ->
  forall p : Page, listening p -> listening (run events p).
Proof.
  induction 1 as [| ev rest Hev _ IH]; intros p Hp; [exact Hp |].
  unfold run in *. cbn [fold_left]. apply IH. now apply dispatch_listening.
Qed.

(** X17: mounted without a canvas, or on a canvas without a 2D context, the loop
    ends with its first frame: [animate] returns before it asks for the next
    frame, so from then on no frame request is outstanding and nothing is
    ever drawn, although the listeners stay registered until the unmount. *)
Theorem loop_stops_without_surface (canvas : option Canvas) (w h : N)
        (events : list Event) :
  rendersFrame (initialState canvas) = false ->
  let p := run (Frame :: events) (mounted canvas w h) in
  scheduledFrames (browser p) = [] /\
  frameContext (refs p) = None /\
  (Forall (fun ev => ev <> Unmount) events -> listening p).
Proof.
  intros Hrenders p.
  assert (Hmounted : rendersFrame (refs (mounted canvas w h)) = false).
  { unfold mounted, effectSetup. cbn [refs browser requestAnimationFrame].
    unfold rendersFrame in *. cbn [canvasRef] in *.
    destruct canvas as [c |]; cbn; [| reflexivity]. exact Hrenders. }
  assert (Hfirst : (rendersFrame (refs (dispatch (mounted canvas w h) Frame)) = false /\
                    scheduledFrames (browser (dispatch (mounted canvas w h) Frame)) = []) /\
                   listening (dispatch (mounted canvas w h) Frame)).
  { cbn [dispatch]. unfold runFrame, listening.
    change (scheduledFrames (browser (mounted canvas w h))) with [1%positive].
    rewrite Hmounted. cbn [refs browser scheduledFrames].
    rewrite animate_skipped by exact Hmounted. now repeat split. }
  destruct Hfirst as [Hstopped Hlistening].
  assert (Hp : p = run events (dispatch (mounted canvas w h) Frame)) by reflexivity.
  destruct (run_stopped events _ Hstopped) as [Hr Hs]. rewrite <- Hp in Hr, Hs.
  split; [exact Hs |]. split.
  - unfold rendersFrame in Hr. unfold frameContext.
    destruct (canvasRef (refs p)) as [c |]; [| reflexivity].
    destruct (context2d c); [discriminate | reflexivity].
  - intros Hevents. rewrite Hp. now apply run_listening.
Qed.

Lemma loop_stops_without_surface_witness :
  let p := run [Frame; Resize 500 500; MouseMove 10 20; Frame]
             (mounted (Some (mkCanvas 0 0 None)) 300 200) in
  scheduledFrames (browser p) = [] /\ frameContext (refs p) = None.
Proof.
  intros p.
  destruct (loop_stops_without_surface (Some (mkCanvas 0 0 None)) 300 200
              [Resize 500 500; MouseMove 10 20; Frame] eq_refl) as (Hs & Hc & _).
  split; [exact Hs | exact Hc].
Defined.

(** ** Input handlers (setCanvasAndGrid, handleMouseMove) *)

(** X18: inputs between two frames coalesce: of several resizes only the last
    one shows in the state, of several pointer moves only the last one, and
    a resize and a pointer move can arrive in either order. *)
Theorem inputs_coalesce (s : State) (w1 h1 w2 h2 : N) (ex1 ey1 ex2 ey2 : R) :
  setCanvasAndGrid w2 h2 (setCanvasAndGrid w1 h1 s) = setCanvasAndGrid w2 h2 s /\
  handleMouseMove ex2 ey2 (handleMouseMove ex1 ey1 s) = handleMouseMove ex2 ey2 s /\
  handleMouseMove ex1 ey1 (setCanvasAndGrid w1 h1 s)
  = setCanvasAndGrid w1 h1 (handleMouseMove ex1 ey1 s).
Proof.
  destruct s as [[canvas |] frame target cells]; repeat split.
Qed.

Lemma origin_targetAngle (cx cy : R) :
  0 < cx -> 0 < cy ->
  - PI < targetAngle (mkMouse 0 0) (mkCell cx cy 0) < - (PI / 2).
Proof.
  intros Hx Hy. unfold targetAngle, atan2. cbn [clientX clientY x y].
  pose proof (atan_bound ((0 - cy) / (0 - cx))) as Hb.
  pose proof (atan_pos _ (quotient_neg_neg (0 - cy) (0 - cx) ltac:(lra) ltac:(lra))).
  case_wrap; lra.
Qed.

(** X19: until the first pointer event the target is the origin, the top left
    corner of the window: right after the mount every cell of the grid has a
    target angle strictly between -PI and -PI/2, and the first frame without
    a pointer event turns each cell to SMOOTHING_FACTOR times that angle. *)
Theorem first_frame_aims_at_origin (canvas : Canvas) (ctx : Context2D) (w h : N)
        (cell : GridCell) :
  context2d canvas = Some ctx ->
  In cell (arrowGridPositions (refs (mounted (Some canvas) w h))) ->
  targetMousePos (refs (mounted (Some canvas) w h)) = mkMouse 0 0 /\
  - PI < targetAngle (mkMouse 0 0) cell < - (PI / 2) /\
  In (mkCell (x cell) (y cell) (targetAngle (mkMouse 0 0) cell * SMOOTHING_FACTOR))
    (arrowGridPositions (refs (dispatch (mounted (Some canvas) w h) Frame))).
Proof.
  intros Hctx Hin.
  assert (Hcells : arrowGridPositions (refs (mounted (Some canvas) w h))
                   = newGridPositions w h) by reflexivity.
  rewrite Hcells in Hin.
  split; [reflexivity |].
  assert (Hangle : currentAngle cell = 0).
  { pose proof (newGridPositions_angles w h) as Hall.
    rewrite Forall_forall in Hall. now apply Hall. }
  destruct (grid_cell_within_margins w h cell Hin) as (Hx & _ & Hy & _).
  assert (Hstep : num ARROW_SPACING = 50) by reflexivity.
  rewrite Hstep in Hx, Hy.
  destruct cell as [cx cy angle]. cbn [x y currentAngle] in *. subst angle.
  split; [apply origin_targetAngle; lra |].
  cbn [dispatch]. unfold runFrame.
  change (scheduledFrames (browser (mounted (Some canvas) w h))) with [1%positive].
  cbn [refs].
  rewrite (animate_cells_mounted _ (refs (mounted (Some canvas) w h))
             (mkCanvas w h (context2d canvas)) ctx eq_refl Hctx).
  rewrite Hcells.
  change (targetMousePos (refs (mounted (Some canvas) w h))) with (mkMouse 0 0).
  apply in_map_iff. exists (mkCell cx cy 0). split; [| exact Hin].
  rewrite (ticks_closed_form SMOOTHING_FACTOR (mkMouse 0 0) cx cy 1
             SMOOTHING_FACTOR_range : rotateArrow _ _ _ = _).
  f_equal. simpl. ring.
Qed.

Lemma first_frame_aims_at_origin_witness :
  let canvas := mkCanvas 0 0 (Some defaultContext) in
  let cell := mkCell (num ARROW_SPACING / 2 + num (120 mod ARROW_SPACING) / 2)
                (num ARROW_SPACING / 2 + num (70 mod ARROW_SPACING) / 2) 0 in
  In cell (arrowGridPositions (refs (mounted (Some canvas) 120 70))) /\
  - PI < targetAngle (mkMouse 0 0) cell < - (PI / 2).
Proof.
  intros canvas cell.
  assert (Hin : In cell (arrowGridPositions (refs (mounted (Some canvas) 120 70)))).
  { change (arrowGridPositions (refs (mounted (Some canvas) 120 70)))
      with (newGridPositions 120 70).
    apply (grid_corners 120 70); unfold ARROW_SPACING; lia. }
  split; [exact Hin |].
  exact (proj1 (proj2 (first_frame_aims_at_origin canvas defaultContext 120 70 cell
                         eq_refl Hin))).
Defined.
